(** * The operator algebra of [operator.py]

    A shallow embedding of [src/src/operator/operator.py]: the abstract
    [Operator] / [LinearOperator] hierarchy and its combinators (sum,
    composition, pointwise product, scalar multiples, adjoint), with the checked
    entry points [apply] and [applyAdjoint].

    The module mutates caller-supplied buffers in place ([out += tmp],
    [out *= scalar]) and tests them for identity ([rhs is out]), so buffers are
    references into an explicit store and every method is a state transformer
    that may raise. *)

From stdpp Require Import gmap.

(** ** Exceptions *)

(** The texts of the exceptions raised in [operator.py], one constructor per
    [raise] site (the formatted operands are left out). *)
Inductive message :=
  | rhs_not_in_domain            (* Operator.apply, line 60 *)
  | out_not_in_range             (* Operator.apply, line 63 *)
  | aliased_arguments            (* Operator.apply, line 66 *)
  | rhs_not_in_adjoint_domain    (* LinearOperator.applyAdjoint, line 270 *)
  | out_not_in_adjoint_range     (* LinearOperator.applyAdjoint, line 272 *)
  | aliased_adjoint_arguments    (* LinearOperator.applyAdjoint, line 274 *)
  | expected_operator            (* Operator.__add__ *)
  | expected_scalar              (* Operator.__mul__, Operator.__rmul__ *)
  | expected_operator_or_scalar  (* LinearOperator.__mul__ *)
  | ranges_not_equal             (* OperatorSum, OperatorPointwiseProduct *)
  | domains_not_equal            (* OperatorSum, OperatorPointwiseProduct *)
  | range_not_domain             (* OperatorComposition *)
  | scalar_not_in_range_field    (* OperatorLeftScalarMultiplication *)
  | scalar_not_in_domain_field   (* OperatorRightScalarMultiplication *)
  | not_a_LinearOperator.        (* OperatorAdjoint and the Linear* combinators *)

(** The exception classes the module raises.  [AttributeError] is what Python
    raises when [applyAdjointImpl] or [applyAdjoint] is looked up on an operator
    that is not a [LinearOperator]. *)
Inductive exn :=
  | TypeError (m : message)
  | ValueError (m : message)
  | AttributeError.

Inductive result (A : Type) :=
  | Ok (a : A)
  | Raise (e : exn).
Arguments Ok {A} a.
Arguments Raise {A} e.

(** The error taxonomy of the specification, as the exceptions of the code. *)
Definition DomainError : exn := TypeError rhs_not_in_domain.
Definition RangeError : exn := TypeError out_not_in_range.
Definition AliasingError : exn := ValueError aliased_arguments.

(** ** Buffers and the collaborating spaces *)

(** An element buffer is a Python object: [ident] is the identity that [is]
    compares, [home] the space that allocated it, [store] the storage its
    in-place operations write to.  Two distinct objects may be views of one
    storage. *)
Record buffer (Space : Type) := Buffer {
  ident : nat;
  home : Space;
  store : nat
}.
Arguments Buffer {Space} ident home store.
Arguments ident {Space} b.
Arguments home {Space} b.
Arguments store {Space} b.

(** The capabilities the operator layer expects from its collaborators: spaces
    (comparison with [!=], [isMember], [field.isMember], the contents of a
    buffer from [empty()]) and element buffers ([+=], [*=] with an element,
    [*=] with a scalar).  None of them is defined in [operator.py]. *)
Class Collaborators (Space Scalar Vec : Type) := {
  Space_eq_dec :: EqDecision Space;
  Vec_inhabited :: Inhabited Vec;
  isMember : Space → buffer Space → bool;
  field_isMember : Space → Scalar → bool;
  uninitialised : Space → Vec;
  iadd : Vec → Vec → Vec;
  imul : Vec → Vec → Vec;
  iscale : Vec → Scalar → Vec
}.

(** What the operator layer relies on: a buffer a space allocates is a member
    of it, and so is a copy of a member. *)
Class SpaceLaws (Space Scalar Vec : Type) `{!Collaborators Space Scalar Vec} := {
  isMember_empty : ∀ (S : Space) i s, isMember S (Buffer i S s) = true;
  isMember_copy : ∀ (S : Space) b i s,
    isMember S b = true → isMember S (Buffer i (home b) s) = true
}.

Section Operators.
Context {Space Scalar Vec : Type} `{!Collaborators Space Scalar Vec}.

(** ** The store and the effects of a method *)

(** [next] numbers the objects and storages allocated so far; [mem] holds the
    contents of each storage. *)
Record state := State {
  next : nat;
  mem : gmap nat Vec
}.

Definition eff (A : Type) : Type := state → result (A * state).

Definition eff_ret {A} (a : A) : eff A := λ σ, Ok (a, σ).

Definition eff_bind {A B} (f : A → eff B) (m : eff A) : eff B :=
  λ σ, match m σ with
       | Ok (a, σ') => f a σ'
       | Raise e => Raise e
       end.

#[global] Instance eff_mret : MRet eff := @eff_ret.
#[global] Instance eff_mbind : MBind eff := @eff_bind.

Definition raise {A} (e : exn) : eff A := λ _, Raise e.

(** The contents of a buffer. *)
Definition read (σ : state) (b : buffer Space) : Vec := mem σ !!! store b.

(** Overwrite the storage of [b]. *)
Definition assign (b : buffer Space) (v : Vec) : eff unit :=
  λ σ, Ok (tt, State (next σ) (<[store b := v]> (mem σ))).

(** [S.empty()]: a new object on a new storage. *)
Definition Space_empty (S : Space) : eff (buffer Space) :=
  λ σ, Ok (Buffer (next σ) S (next σ),
           State (Datatypes.S (next σ)) (<[next σ := uninitialised S]> (mem σ))).

(** [b.copy()]: a new object of the same space on a new storage with the
    contents of [b]. *)
Definition buffer_copy (b : buffer Space) : eff (buffer Space) :=
  λ σ, Ok (Buffer (next σ) (home b) (next σ),
           State (Datatypes.S (next σ)) (<[next σ := read σ b]> (mem σ))).

(** [out += tmp] *)
Definition buffer_iadd (out tmp : buffer Space) : eff unit :=
  λ σ, assign out (iadd (read σ out) (read σ tmp)) σ.

(** [out *= tmp] *)
Definition buffer_imul (out tmp : buffer Space) : eff unit :=
  λ σ, assign out (imul (read σ out) (read σ tmp)) σ.

(** [out *= scalar] *)
Definition buffer_iscale (out : buffer Space) (scalar : Scalar) : eff unit :=
  λ σ, assign out (iscale (read σ out) scalar) σ.

(** ** Operators *)

(** The instances of the class hierarchy.  The three [Concrete*] constructors
    stand for the subclasses a client writes (a direct subclass of [Operator],
    of [LinearOperator], of [SelfAdjointOperator]): such a subclass supplies
    [domain], [range] and the unchecked primitives, which read the input and
    write their result into [out].  The other constructors are the combinator
    classes of the module, holding the attributes their [__init__] assigns. *)
Inductive operator :=
  | Concrete (dom ran : Space) (impl : Vec → Vec)
  | ConcreteLinear (dom ran : Space) (impl adjointImpl : Vec → Vec)
  | ConcreteSelfAdjoint (dom ran : Space) (impl : Vec → Vec)
  | OperatorSum (op1 op2 : operator)
  | OperatorComposition (left_op right_op : operator)
  | OperatorPointwiseProduct (op1 op2 : operator)
  | OperatorLeftScalarMultiplication (op : operator) (scalar : Scalar)
  | OperatorRightScalarMultiplication (op : operator) (scalar : Scalar)
  | OperatorAdjoint (op : operator)
  | LinearOperatorSum (op1 op2 : operator)
  | LinearOperatorComposition (left_op right_op : operator)
  | LinearOperatorScalarMultiplication (op : operator) (scalar : Scalar).

(** [isinstance(op, LinearOperator)] *)
Definition is_LinearOperator (op : operator) : bool :=
  match op with
  | ConcreteLinear _ _ _ _ | ConcreteSelfAdjoint _ _ _
  | OperatorAdjoint _ | LinearOperatorSum _ _
  | LinearOperatorComposition _ _ | LinearOperatorScalarMultiplication _ _ => true
  | _ => false
  end.

(** [isinstance(op, SelfAdjointOperator)] *)
Definition is_SelfAdjointOperator (op : operator) : bool :=
  match op with
  | ConcreteSelfAdjoint _ _ _ => true
  | _ => false
  end.

(** The [domain] and [range] properties, class by class. *)
Fixpoint domain (self : operator) : Space :=
  match self with
  | Concrete dom _ _ | ConcreteLinear dom _ _ _ | ConcreteSelfAdjoint dom _ _ => dom
  | OperatorSum op1 _ | LinearOperatorSum op1 _ => domain op1
  | OperatorComposition _ right_op | LinearOperatorComposition _ right_op => domain right_op
  | OperatorPointwiseProduct op1 _ => domain op1
  | OperatorLeftScalarMultiplication op _
  | LinearOperatorScalarMultiplication op _ => domain op
  | OperatorRightScalarMultiplication op _ => domain op
  | OperatorAdjoint op => range op
  end
with range (self : operator) : Space :=
  match self with
  | Concrete _ ran _ | ConcreteLinear _ ran _ _ | ConcreteSelfAdjoint _ ran _ => ran
  | OperatorSum op1 _ | LinearOperatorSum op1 _ => range op1
  | OperatorComposition left_op _ | LinearOperatorComposition left_op _ => range left_op
  | OperatorPointwiseProduct op1 _ => range op1
  | OperatorLeftScalarMultiplication op _
  | LinearOperatorScalarMultiplication op _ => range op
  | OperatorRightScalarMultiplication op _ => range op
  | OperatorAdjoint op => domain op
  end.

(** *** Constructors

    Each [__init__] validates its operands and then assigns them. *)

Definition OperatorSum_init (op1 op2 : operator) : result operator :=
  if bool_decide (range op1 ≠ range op2) then Raise (TypeError ranges_not_equal)
  else if bool_decide (domain op1 ≠ domain op2) then Raise (TypeError domains_not_equal)
  else Ok (OperatorSum op1 op2).

Definition OperatorComposition_init (left_op right_op : operator) : result operator :=
  if bool_decide (range right_op ≠ domain left_op) then Raise (TypeError range_not_domain)
  else Ok (OperatorComposition left_op right_op).

Definition OperatorPointwiseProduct_init (op1 op2 : operator) : result operator :=
  if bool_decide (range op1 ≠ range op2) then Raise (TypeError ranges_not_equal)
  else if bool_decide (domain op1 ≠ domain op2) then Raise (TypeError domains_not_equal)
  else Ok (OperatorPointwiseProduct op1 op2).

Definition OperatorLeftScalarMultiplication_init (op : operator) (scalar : Scalar)
  : result operator :=
  if negb (field_isMember (range op) scalar)
  then Raise (TypeError scalar_not_in_range_field)
  else Ok (OperatorLeftScalarMultiplication op scalar).

Definition OperatorRightScalarMultiplication_init (op : operator) (scalar : Scalar)
  : result operator :=
  if negb (field_isMember (domain op) scalar)
  then Raise (TypeError scalar_not_in_domain_field)
  else Ok (OperatorRightScalarMultiplication op scalar).

Definition OperatorAdjoint_init (op : operator) : result operator :=
  if negb (is_LinearOperator op) then Raise (TypeError not_a_LinearOperator)
  else Ok (OperatorAdjoint op).

(** The linear combinators check the class of their operands and then run the
    [__init__] of the non-linear combinator, on an object of their own class. *)
Definition LinearOperatorSum_init (op1 op2 : operator) : result operator :=
  if negb (is_LinearOperator op1) then Raise (TypeError not_a_LinearOperator)
  else if negb (is_LinearOperator op2) then Raise (TypeError not_a_LinearOperator)
  else match OperatorSum_init op1 op2 with
       | Ok _ => Ok (LinearOperatorSum op1 op2)
       | Raise e => Raise e
       end.

Definition LinearOperatorComposition_init (left_op right_op : operator) : result operator :=
  if negb (is_LinearOperator left_op) then Raise (TypeError not_a_LinearOperator)
  else if negb (is_LinearOperator right_op) then Raise (TypeError not_a_LinearOperator)
  else match OperatorComposition_init left_op right_op with
       | Ok _ => Ok (LinearOperatorComposition left_op right_op)
       | Raise e => Raise e
       end.

Definition LinearOperatorScalarMultiplication_init (op : operator) (scalar : Scalar)
  : result operator :=
  if negb (is_LinearOperator op) then Raise (TypeError not_a_LinearOperator)
  else match OperatorLeftScalarMultiplication_init op scalar with
       | Ok _ => Ok (LinearOperatorScalarMultiplication op scalar)
       | Raise e => Raise e
       end.

(** An operator all of whose nodes passed the checks of their [__init__]. *)
Fixpoint constructed (op : operator) : bool :=
  match op with
  | Concrete _ _ _ | ConcreteLinear _ _ _ _ | ConcreteSelfAdjoint _ _ _ => true
  | OperatorSum op1 op2 | OperatorPointwiseProduct op1 op2 =>
      constructed op1 && constructed op2
      && bool_decide (range op1 = range op2)
      && bool_decide (domain op1 = domain op2)
  | OperatorComposition left_op right_op =>
      constructed left_op && constructed right_op
      && bool_decide (range right_op = domain left_op)
  | OperatorLeftScalarMultiplication op scalar =>
      constructed op && field_isMember (range op) scalar
  | OperatorRightScalarMultiplication op scalar =>
      constructed op && field_isMember (domain op) scalar
  | OperatorAdjoint op => constructed op && is_LinearOperator op
  | LinearOperatorSum op1 op2 =>
      constructed op1 && constructed op2
      && is_LinearOperator op1 && is_LinearOperator op2
      && bool_decide (range op1 = range op2)
      && bool_decide (domain op1 = domain op2)
  | LinearOperatorComposition left_op right_op =>
      constructed left_op && constructed right_op
      && is_LinearOperator left_op && is_LinearOperator right_op
      && bool_decide (range right_op = domain left_op)
  | LinearOperatorScalarMultiplication op scalar =>
      constructed op && is_LinearOperator op && field_isMember (range op) scalar
  end.

(** *** The methods, class by class

    A method that calls a method of [self] or of an operand takes that method
    as an argument; [applyImpl] and [applyAdjointImpl] below dispatch on the
    class of the instance. *)

Definition primitive : Type := buffer Space → buffer Space → eff unit.

(** The primitive of a client's subclass: the result is written into [out]. *)
Definition Concrete_applyImpl (impl : Vec → Vec) : primitive :=
  λ rhs out σ, assign out (impl (read σ rhs)) σ.

Definition Operator_apply (self_domain self_range : Space)
    (self_applyImpl : primitive) : primitive :=
  λ rhs out,
    if negb (isMember self_domain rhs) then raise (TypeError rhs_not_in_domain)
    else if negb (isMember self_range out) then raise (TypeError out_not_in_range)
    else if bool_decide (ident rhs = ident out) then raise (ValueError aliased_arguments)
    else self_applyImpl rhs out.

Definition Operator_call (self_range : Space) (self_apply : primitive)
    (rhs : buffer Space) : eff (buffer Space) :=
  tmp ← Space_empty self_range;
  self_apply rhs tmp;;
  mret tmp.

Definition OperatorSum_applyImpl (self_range : Space)
    (op1_applyImpl op2_applyImpl : primitive) : primitive :=
  λ rhs out,
    tmp ← Space_empty self_range;
    op1_applyImpl rhs out;;
    op2_applyImpl rhs tmp;;
    buffer_iadd out tmp.

Definition OperatorComposition_applyImpl (right_range : Space)
    (left_applyImpl right_applyImpl : primitive) : primitive :=
  λ rhs out,
    tmp ← Space_empty right_range;
    right_applyImpl rhs tmp;;
    left_applyImpl tmp out.

Definition OperatorPointwiseProduct_applyImpl (op2_range : Space)
    (op1_applyImpl op2_applyImpl : primitive) : primitive :=
  λ rhs out,
    tmp ← Space_empty op2_range;
    op1_applyImpl rhs out;;
    op2_applyImpl rhs tmp;;
    buffer_imul out tmp.

Definition OperatorLeftScalarMultiplication_applyImpl
    (op_applyImpl : primitive) (scalar : Scalar) : primitive :=
  λ rhs out,
    op_applyImpl rhs out;;
    buffer_iscale out scalar.

Definition OperatorRightScalarMultiplication_applyImpl
    (op_applyImpl : primitive) (scalar : Scalar) : primitive :=
  λ rhs out,
    tmp ← buffer_copy rhs;
    buffer_iscale tmp scalar;;
    op_applyImpl tmp out.

Definition LinearOperator_applyAdjoint (self_domain self_range : Space)
    (self_applyAdjointImpl : primitive) : primitive :=
  λ rhs out,
    if negb (isMember self_range rhs)
    then raise (TypeError rhs_not_in_adjoint_domain)
    else if negb (isMember self_domain out)
    then raise (TypeError out_not_in_adjoint_range)
    else if bool_decide (ident rhs = ident out)
    then raise (ValueError aliased_adjoint_arguments)
    else self_applyAdjointImpl rhs out.

Definition SelfAdjointOperator_applyAdjointImpl (self_applyImpl : primitive)
  : primitive :=
  λ rhs out, self_applyImpl rhs out.

Definition OperatorAdjoint_applyImpl (op_applyAdjointImpl : primitive) : primitive :=
  λ rhs out, op_applyAdjointImpl rhs out.

Definition OperatorAdjoint_applyAdjointImpl (op_applyImpl : primitive) : primitive :=
  λ rhs out, op_applyImpl rhs out.

Definition LinearOperatorSum_applyAdjointImpl (self_domain : Space)
    (op1_applyAdjointImpl op2_applyAdjointImpl : primitive) : primitive :=
  λ rhs out,
    tmp ← Space_empty self_domain;
    op1_applyAdjointImpl rhs out;;
    op2_applyAdjointImpl rhs tmp;;
    buffer_iadd out tmp.

Definition LinearOperatorComposition_applyAdjointImpl (left_domain : Space)
    (left_applyAdjoint right_applyAdjoint : primitive) : primitive :=
  λ rhs out,
    tmp ← Space_empty left_domain;
    left_applyAdjoint rhs tmp;;
    right_applyAdjoint tmp out.

Definition LinearOperatorScalarMultiplication_applyAdjointImpl
    (op_applyAdjointImpl : primitive) (scalar : Scalar) : primitive :=
  λ rhs out,
    op_applyAdjointImpl rhs out;;
    buffer_iscale out scalar.

(** Looking up a method of [LinearOperator] on another operator. *)
Definition no_such_method : primitive := λ _ _, raise AttributeError.

(** [self.applyImpl] and [self.applyAdjointImpl], resolved along the method
    resolution order of the class of [self]: the linear combinators inherit
    [applyImpl] from the non-linear ones. *)
Fixpoint applyImpl (self : operator) : primitive :=
  match self with
  | Concrete _ _ impl | ConcreteLinear _ _ impl _ | ConcreteSelfAdjoint _ _ impl =>
      Concrete_applyImpl impl
  | OperatorSum op1 op2 | LinearOperatorSum op1 op2 =>
      OperatorSum_applyImpl (range op1) (applyImpl op1) (applyImpl op2)
  | OperatorComposition left_op right_op
  | LinearOperatorComposition left_op right_op =>
      OperatorComposition_applyImpl (range right_op)
        (applyImpl left_op) (applyImpl right_op)
  | OperatorPointwiseProduct op1 op2 =>
      OperatorPointwiseProduct_applyImpl (range op2) (applyImpl op1) (applyImpl op2)
  | OperatorLeftScalarMultiplication op scalar
  | LinearOperatorScalarMultiplication op scalar =>
      OperatorLeftScalarMultiplication_applyImpl (applyImpl op) scalar
  | OperatorRightScalarMultiplication op scalar =>
      OperatorRightScalarMultiplication_applyImpl (applyImpl op) scalar
  | OperatorAdjoint op =>
      OperatorAdjoint_applyImpl (applyAdjointImpl op)
  end
with applyAdjointImpl (self : operator) : primitive :=
  match self with
  | ConcreteLinear _ _ _ adjointImpl => Concrete_applyImpl adjointImpl
  | ConcreteSelfAdjoint _ _ impl =>
      SelfAdjointOperator_applyAdjointImpl (Concrete_applyImpl impl)
  | OperatorAdjoint op =>
      OperatorAdjoint_applyAdjointImpl (applyImpl op)
  | LinearOperatorSum op1 op2 =>
      LinearOperatorSum_applyAdjointImpl (domain op1)
        (applyAdjointImpl op1) (applyAdjointImpl op2)
  | LinearOperatorComposition left_op right_op =>
      LinearOperatorComposition_applyAdjointImpl (domain left_op)
        (if is_LinearOperator left_op
         then LinearOperator_applyAdjoint (domain left_op) (range left_op)
                (applyAdjointImpl left_op)
         else no_such_method)
        (if is_LinearOperator right_op
         then LinearOperator_applyAdjoint (domain right_op) (range right_op)
                (applyAdjointImpl right_op)
         else no_such_method)
  | LinearOperatorScalarMultiplication op scalar =>
      LinearOperatorScalarMultiplication_applyAdjointImpl (applyAdjointImpl op) scalar
  | Concrete _ _ _ | OperatorSum _ _ | OperatorComposition _ _
  | OperatorPointwiseProduct _ _ | OperatorLeftScalarMultiplication _ _
  | OperatorRightScalarMultiplication _ _ => no_such_method
  end.

(** The checked entry points and [__call__]. *)
Definition apply (self : operator) : primitive :=
  Operator_apply (domain self) (range self) (applyImpl self).

Definition applyAdjoint (self : operator) : primitive :=
  if is_LinearOperator self
  then LinearOperator_applyAdjoint (domain self) (range self) (applyAdjointImpl self)
  else no_such_method.

Definition call (self : operator) (rhs : buffer Space) : eff (buffer Space) :=
  Operator_call (range self) (apply self) rhs.

(** The property [T] of [LinearOperator]. *)
Definition T (self : operator) : result operator :=
  if is_LinearOperator self then OperatorAdjoint_init self else Raise AttributeError.

(** The contents of the buffer a call returned. *)
Definition returned (r : result (buffer Space * state)) : option Vec :=
  match r with
  | Ok (b, σ) => Some (read σ b)
  | Raise _ => None
  end.

(** *** The arithmetic operators *)

(** The other operand of [+] or [*]: a [Number], an operator, or an object
    that is neither and knows nothing of operators. *)
Inductive value :=
  | VNumber (a : Scalar)
  | VOperator (op : operator)
  | VObject.

Definition Operator_add (self : operator) (other : value) : result operator :=
  match other with
  | VOperator op => OperatorSum_init self op
  | _ => Raise (TypeError expected_operator)
  end.

Definition Operator_mul (self : operator) (other : value) : result operator :=
  match other with
  | VNumber a => OperatorLeftScalarMultiplication_init self a
  | _ => Raise (TypeError expected_scalar)
  end.

Definition Operator_rmul (self : operator) (other : value) : result operator :=
  match other with
  | VNumber a => OperatorRightScalarMultiplication_init self a
  | _ => Raise (TypeError expected_scalar)
  end.

Definition LinearOperator_add (self : operator) (other : value) : result operator :=
  match other with
  | VOperator op =>
      if is_LinearOperator op then LinearOperatorSum_init self op
      else Operator_add self other
  | _ => Operator_add self other
  end.

Definition LinearOperator_mul (self : operator) (other : value) : result operator :=
  match other with
  | VNumber a => LinearOperatorScalarMultiplication_init self a
  | _ => Raise (TypeError expected_operator_or_scalar)
  end.

(** [__rmul__ = __mul__] in the body of [LinearOperator]. *)
Definition LinearOperator_rmul : operator → value → result operator :=
  LinearOperator_mul.

(** [type(self).__mul__] and [type(self).__rmul__]: [LinearOperator] overrides
    both. *)
Definition method_mul (self : operator) : value → result operator :=
  if is_LinearOperator self then LinearOperator_mul self else Operator_mul self.

Definition method_rmul (self : operator) : value → result operator :=
  if is_LinearOperator self then LinearOperator_rmul self else Operator_rmul self.

(** The expression [A * other] is [type(A).__mul__(A, other)]. *)
Definition operator_times (A : operator) (other : value) : result operator :=
  method_mul A other.

(** The expression [other * A]: Python first asks the left operand.  When it is
    an operator its [__mul__] answers; a number or another object returns
    [NotImplemented] for an operator, and Python calls the reflected method
    [type(A).__rmul__(A, other)]. *)
Definition times_operator (other : value) (A : operator) : result operator :=
  match other with
  | VOperator B => method_mul B (VOperator A)
  | _ => method_rmul A other
  end.

(** ** The maps the docstrings give

    Each class states in its docstring the map it stands for
    ([OperatorSum(op1,op2)(x) = op1(x) + op2(x)],
    [OperatorComposition(left,right)(x) = left(right(x))],
    [OperatorLeftScalarMultiplication(op,scalar)(x) = scalar * op(x)],
    [OperatorRightScalarMultiplication(op,scalar)(x) = op(scalar * x)], ...).
    [map_of] and [adjoint_map_of] collect them; the code above is compared with
    them below.  On an operator without an adjoint [adjoint_map_of] is the
    identity, a value that is never used. *)
Fixpoint map_of (self : operator) (x : Vec) : Vec :=
  match self with
  | Concrete _ _ impl | ConcreteLinear _ _ impl _ | ConcreteSelfAdjoint _ _ impl => impl x
  | OperatorSum op1 op2 | LinearOperatorSum op1 op2 =>
      iadd (map_of op1 x) (map_of op2 x)
  | OperatorComposition left_op right_op
  | LinearOperatorComposition left_op right_op =>
      map_of left_op (map_of right_op x)
  | OperatorPointwiseProduct op1 op2 => imul (map_of op1 x) (map_of op2 x)
  | OperatorLeftScalarMultiplication op scalar
  | LinearOperatorScalarMultiplication op scalar => iscale (map_of op x) scalar
  | OperatorRightScalarMultiplication op scalar => map_of op (iscale x scalar)
  | OperatorAdjoint op => adjoint_map_of op x
  end
with adjoint_map_of (self : operator) (x : Vec) : Vec :=
  match self with
  | ConcreteLinear _ _ _ adjointImpl => adjointImpl x
  | ConcreteSelfAdjoint _ _ impl => impl x
  | OperatorAdjoint op => map_of op x
  | LinearOperatorSum op1 op2 => iadd (adjoint_map_of op1 x) (adjoint_map_of op2 x)
  | LinearOperatorComposition left_op right_op =>
      adjoint_map_of right_op (adjoint_map_of left_op x)
  | LinearOperatorScalarMultiplication op scalar => iscale (adjoint_map_of op x) scalar
  | Concrete _ _ _ | OperatorSum _ _ | OperatorComposition _ _
  | OperatorPointwiseProduct _ _ | OperatorLeftScalarMultiplication _ _
  | OperatorRightScalarMultiplication _ _ => x
  end.

(** A buffer that was allocated before the state [σ]. *)
Definition allocated (σ : state) (b : buffer Space) : Prop :=
  ident b < next σ ∧ store b < next σ.

(** The half of the contract of [LinearOperator] ([A(ax+by) = a*A(x) + b*A(y)])
    that concerns one scalar: on a buffer that holds [scalar] times the
    contents of [x], the operator returns [scalar] times what it returns on
    [x]. *)
Definition homogeneous (A : operator) (scalar : Scalar) : Prop :=
  ∀ σ x ax,
    isMember (domain A) x = true → isMember (domain A) ax = true →
    allocated σ x → allocated σ ax →
    read σ ax = iscale (read σ x) scalar →
    ∃ v, returned (call A x σ) = Some v ∧
         returned (call A ax σ) = Some (iscale v scalar).

(** ** Specifications of primitives *)

(** From [σ] to [σ'] nothing that existed was written, except the storage of
    [out]. *)
Definition writes_only (out : buffer Space) (σ σ' : state) : Prop :=
  next σ ≤ next σ' ∧
  ∀ l, l < next σ → l ≠ store out → mem σ' !! l = mem σ !! l.

(** Whenever the primitive [p] returns, it has written into [out] the image
    under [f] of the contents of [rhs], and nothing else that existed. *)
Definition computes (f : Vec → Vec) (p : primitive) : Prop :=
  ∀ rhs out σ σ',
    p rhs out σ = Ok (tt, σ') →
    store rhs < next σ → store out < next σ →
    writes_only out σ σ' ∧
    (store rhs ≠ store out → mem σ' !! store out = Some (f (read σ rhs))).

(** The primitive [p] returns on every member of [dom] and [ran] that was
    allocated, whatever their storage. *)
Definition succeeds (dom ran : Space) (p : primitive) : Prop :=
  ∀ rhs out σ,
    isMember dom rhs = true → isMember ran out = true →
    ident rhs < next σ → ident out < next σ →
    ∃ σ', p rhs out σ = Ok (tt, σ') ∧ next σ ≤ next σ'.

(** The same for a checked entry point, which also wants two objects. *)
Definition succeeds_checked (dom ran : Space) (p : primitive) : Prop :=
  ∀ rhs out σ,
    isMember dom rhs = true → isMember ran out = true →
    ident rhs < next σ → ident out < next σ → ident rhs ≠ ident out →
    ∃ σ', p rhs out σ = Ok (tt, σ') ∧ next σ ≤ next σ'.

(** ** Further notions of the operator layer *)

(** [type(self).__add__]: [LinearOperator] overrides it; no class defines
    [__radd__]. *)
Definition method_add (self : operator) : value → result operator :=
  if is_LinearOperator self then LinearOperator_add self else Operator_add self.

(** The expression [A + other] is [type(A).__add__(A, other)]. *)
Definition operator_plus (A : operator) (other : value) : result operator :=
  method_add A other.

(** The other half of the contract of [LinearOperator]: on a buffer that holds
    the sum of the contents of [x] and [y], the operator returns the sum of
    what it returns on [x] and on [y]. *)
Definition additive (A : operator) : Prop :=
  ∀ σ x y xy,
    isMember (domain A) x = true → isMember (domain A) y = true →
    isMember (domain A) xy = true →
    allocated σ x → allocated σ y → allocated σ xy →
    read σ xy = iadd (read σ x) (read σ y) →
    ∃ u w, returned (call A x σ) = Some u ∧
           returned (call A y σ) = Some w ∧
           returned (call A xy σ) = Some (iadd u w).

(** A property of the primitives of every client-written operator below
    [op]. *)
Fixpoint leaves_satisfy (P : (Vec → Vec) → Prop) (op : operator) : Prop :=
  match op with
  | Concrete _ _ impl | ConcreteSelfAdjoint _ _ impl => P impl
  | ConcreteLinear _ _ impl adjointImpl => P impl ∧ P adjointImpl
  | OperatorSum op1 op2 | OperatorComposition op1 op2
  | OperatorPointwiseProduct op1 op2
  | LinearOperatorSum op1 op2 | LinearOperatorComposition op1 op2 =>
      leaves_satisfy P op1 ∧ leaves_satisfy P op2
  | OperatorLeftScalarMultiplication op _
  | OperatorRightScalarMultiplication op _
  | OperatorAdjoint op
  | LinearOperatorScalarMultiplication op _ => leaves_satisfy P op
  end.

(** The number of buffers [applyImpl] and [applyAdjointImpl] allocate: one for
    each [empty()] and each [copy()] on the way. *)
Fixpoint temporaries (self : operator) : nat :=
  match self with
  | Concrete _ _ _ | ConcreteLinear _ _ _ _ | ConcreteSelfAdjoint _ _ _ => 0
  | OperatorSum op1 op2 | LinearOperatorSum op1 op2
  | OperatorPointwiseProduct op1 op2 =>
      S (temporaries op1 + temporaries op2)
  | OperatorComposition left_op right_op
  | LinearOperatorComposition left_op right_op =>
      S (temporaries right_op + temporaries left_op)
  | OperatorLeftScalarMultiplication op _
  | LinearOperatorScalarMultiplication op _ => temporaries op
  | OperatorRightScalarMultiplication op _ => S (temporaries op)
  | OperatorAdjoint op => adjoint_temporaries op
  end
with adjoint_temporaries (self : operator) : nat :=
  match self with
  | ConcreteLinear _ _ _ _ | ConcreteSelfAdjoint _ _ _ => 0
  | OperatorAdjoint op => temporaries op
  | LinearOperatorSum op1 op2 =>
      S (adjoint_temporaries op1 + adjoint_temporaries op2)
  | LinearOperatorComposition left_op right_op =>
      S (adjoint_temporaries left_op + adjoint_temporaries right_op)
  | LinearOperatorScalarMultiplication op _ => adjoint_temporaries op
  | Concrete _ _ _ | OperatorSum _ _ | OperatorComposition _ _
  | OperatorPointwiseProduct _ _ | OperatorLeftScalarMultiplication _ _
  | OperatorRightScalarMultiplication _ _ => 0
  end.

(** Whenever the primitive [p] returns, it has allocated [n] buffers. *)
Definition allocates (n : nat) (p : primitive) : Prop :=
  ∀ rhs out σ σ', p rhs out σ = Ok (tt, σ') → next σ' = next σ + n.

End Operators.

Arguments operator : clear implicits.
Arguments value : clear implicits.
Arguments state : clear implicits.

(** The laws of the in-place operations that linearity rests on. *)
Class VectorLaws (Space Scalar Vec : Type) `{!Collaborators Space Scalar Vec} := {
  iscale_iadd : ∀ (u w : Vec) (a : Scalar),
    iscale (iadd u w) a = iadd (iscale u a) (iscale w a);
  iscale_iscale : ∀ (u : Vec) (a b : Scalar),
    iscale (iscale u a) b = iscale (iscale u b) a;
  iadd_interchange : ∀ a b c d : Vec,
    iadd (iadd a b) (iadd c d) = iadd (iadd a c) (iadd b d)
}.

(** ** The Landweber iteration of [solverExamples.py] *)

(** The arithmetic of element buffers the solver uses: the contents of the new
    element [u - v] and of the new element [a * v].  It is not defined in the
    repository. *)
Class ElementArithmetic (Scalar Vec : Type) := {
  vsub : Vec → Vec → Vec;
  vscale : Scalar → Vec → Vec
}.

Section Solvers.
Context {Space Scalar Vec : Type} `{!Collaborators Space Scalar Vec}.
Context `{!ElementArithmetic Scalar Vec}.

(** [u - v]: a new object of the space of [u] on a new storage. *)
Definition buffer_sub (u v : buffer Space) : eff (buffer Space) :=
  λ σ, Ok (Buffer (next σ) (home u) (next σ),
           State (S (next σ)) (<[next σ := vsub (read σ u) (read σ v)]> (mem σ))).

(** [a * v]: a new object of the space of [v] on a new storage. *)
Definition buffer_rmul (a : Scalar) (v : buffer Space) : eff (buffer Space) :=
  λ σ, Ok (Buffer (next σ) (home v) (next σ),
           State (S (next σ)) (<[next σ := vscale a (read σ v)]> (mem σ))).

(** A value or an exception, as an effect. *)
Definition lift {A} (r : result A) : eff A :=
  λ σ : state Vec, match r with
       | Ok a => Ok (a, σ)
       | Raise e => Raise e
       end.

(** The right-hand side of [x = x - omega * operator.T(operator(x)-rhs)], in
    Python's order of evaluation: the callee [operator.T] before its
    argument. *)
Definition landweber_step (operator_ : operator Space Scalar Vec)
    (rhs : buffer Space) (omega : Scalar) (x : buffer Space)
  : eff (buffer Space) :=
  operator_T ← lift (T operator_);
  y ← call operator_ x;
  d ← buffer_sub y rhs;
  g ← call operator_T d;
  h ← buffer_rmul omega g;
  buffer_sub x h.

(** The [for] loop, which rebinds the local name [x]; the result is the
    object the name is bound to at the end. *)
Fixpoint landweber_loop (operator_ : operator Space Scalar Vec)
    (rhs : buffer Space) (omega : Scalar) (iterations : nat) (x : buffer Space)
  : eff (buffer Space) :=
  match iterations with
  | 0 => mret x
  | S n =>
      x' ← landweber_step operator_ rhs omega x;
      landweber_loop operator_ rhs omega n x'
  end.


(** [landweberBase(operator, x, rhs, iterations, omega)]: the function has no
    [return] statement. *)
Definition landweberBase (operator_ : operator Space Scalar Vec)
    (x rhs : buffer Space) (iterations : nat) (omega : Scalar) : eff unit :=
  landweber_loop operator_ rhs omega iterations x;;
  mret tt.

End Solvers.

(** ** An instance: integer vectors

    Spaces are named by their dimension, scalars are integers and the contents
    of a buffer is a list of integers; the in-place operations act element by
    element. *)
Module Integers.

Definition collaborators : Collaborators nat Z (list Z) := {|
  isMember S b := bool_decide (home b = S);
  field_isMember _ _ := true;
  uninitialised S := replicate S 0%Z;
  iadd := zip_with Z.add;
  imul := zip_with Z.mul;
  iscale v a := (λ x, a * x)%Z <$> v
|}.
#[export] Existing Instance collaborators.

(** [x ↦ 2 x], self-adjoint. *)
Definition doubling : operator nat Z (list Z) :=
  ConcreteSelfAdjoint 3 3 (λ v, (λ x, 2 * x)%Z <$> v).

(** [x ↦ 3 x], with its adjoint. *)
Definition tripling : operator nat Z (list Z) :=
  ConcreteLinear 3 3 (λ v, (λ x, 3 * x)%Z <$> v) (λ v, (λ x, 3 * x)%Z <$> v).

(** [x ↦ x²] element by element: not linear. *)
Definition squaring : operator nat Z (list Z) :=
  Concrete 3 3 (λ v, zip_with Z.mul v v).

(** Two buffers of the space of dimension 3 and a state that holds them. *)
Definition x0 : buffer nat := Buffer 0 3 0.
Definition y0 : buffer nat := Buffer 1 3 1.
Definition σ0 : state (list Z) :=
  State 2 (<[0 := [1; 2; 3]%Z]> (<[1 := [0; 0; 0]%Z]> ∅)).

(** A second object on the storage of [x0]: a view. *)
Definition x0_view : buffer nat := Buffer 1 3 0.

End Integers.

Import Integers.

(** The arithmetic of integer vectors. *)
Definition integer_arithmetic : ElementArithmetic Z (list Z) := {|
  vsub := zip_with Z.sub;
  vscale a v := (λ x, a * x)%Z <$> v
|}.
#[global] Existing Instance integer_arithmetic.

(** * Properties *)

Section Properties.
Context {Space Scalar Vec : Type} `{!Collaborators Space Scalar Vec}.

Implicit Types (op A B : operator Space Scalar Vec).
Implicit Types (rhs out x y tmp : buffer Space) (σ : state Vec).
Implicit Types (p : @primitive Space Vec) (f g : Vec → Vec).

(** ** Running the effects *)

Lemma bind_Ok {X Y} (m : eff X) (k : X → eff Y) σ (r : Y * state Vec) :
  (m ≫= k) σ = Ok r ↔ ∃ a σ1, m σ = Ok (a, σ1) ∧ k a σ1 = Ok r.
Proof.
  unfold mbind, eff_mbind, eff_bind.
  destruct (m σ) as [[a σ1]|e]; split.
  - eauto.
  - by intros (? & ? & [= <- <-] & ?).
  - done.
  - by intros (? & ? & ? & ?).
Qed.

Lemma bind_run {X Y} (m : eff X) (k : X → eff Y) σ a σ1 :
  m σ = Ok (a, σ1) → (m ≫= k) σ = k a σ1.
Proof. unfold mbind, eff_mbind, eff_bind. by intros ->. Qed.

Lemma read_frame σ σ' b :
  mem σ' !! store b = mem σ !! store b → read σ' b = read σ b.
Proof. unfold read. rewrite !lookup_total_alt. by intros ->. Qed.

Lemma read_Some σ b v : mem σ !! store b = Some v → read σ b = v.
Proof. unfold read. rewrite lookup_total_alt. by intros ->. Qed.

Lemma writes_only_read out σ σ' b :
  writes_only out σ σ' → store b < next σ → store b ≠ store out →
  read σ' b = read σ b.
Proof. intros [_ Hf] ??. apply read_frame. by apply Hf. Qed.

Lemma read_insert_ne σ n l v b :
  store b ≠ l → read (State n (<[l := v]> (mem σ))) b = read σ b.
Proof. intros. apply read_frame. simpl. by rewrite lookup_insert_ne. Qed.

(** ** Constructors *)

(** X19. What a constructor returns is [constructed] when its operands are:
    the checks of the constructors hold at every node of every operator that
    can be built. *)
Lemma init_constructed :
  (∀ op1 op2 t, OperatorSum_init op1 op2 = Ok t →
     constructed op1 = true → constructed op2 = true → constructed t = true) ∧
  (∀ op1 op2 t, OperatorComposition_init op1 op2 = Ok t →
     constructed op1 = true → constructed op2 = true → constructed t = true) ∧
  (∀ op1 op2 t, OperatorPointwiseProduct_init op1 op2 = Ok t →
     constructed op1 = true → constructed op2 = true → constructed t = true) ∧
  (∀ op a t, OperatorLeftScalarMultiplication_init op a = Ok t →
     constructed op = true → constructed t = true) ∧
  (∀ op a t, OperatorRightScalarMultiplication_init op a = Ok t →
     constructed op = true → constructed t = true) ∧
  (∀ op t, OperatorAdjoint_init op = Ok t →
     constructed op = true → constructed t = true) ∧
  (∀ op1 op2 t, LinearOperatorSum_init op1 op2 = Ok t →
     constructed op1 = true → constructed op2 = true → constructed t = true) ∧
  (∀ op1 op2 t, LinearOperatorComposition_init op1 op2 = Ok t →
     constructed op1 = true → constructed op2 = true → constructed t = true) ∧
  (∀ op a t, LinearOperatorScalarMultiplication_init op a = Ok t →
     constructed op = true → constructed t = true).
Proof.
  unfold LinearOperatorSum_init, LinearOperatorComposition_init,
    LinearOperatorScalarMultiplication_init, OperatorSum_init,
    OperatorComposition_init, OperatorPointwiseProduct_init,
    OperatorLeftScalarMultiplication_init, OperatorRightScalarMultiplication_init,
    OperatorAdjoint_init.
  split_and!; intros;
    repeat case_match; simplify_eq/=;
    repeat match goal with
           | H : negb _ = false |- _ => apply negb_false_iff in H
           | H : bool_decide (_ ≠ _) = false |- _ =>
               apply bool_decide_eq_false_1, dec_stable in H
           end;
    repeat match goal with H : _ = true |- _ => rewrite H end;
    simpl; rewrite ?bool_decide_eq_true_2 by done; done.
Qed.

(** On an operator that is not a [LinearOperator], [A * a] builds the left
    multiplication and [a * A] the right one. *)
Lemma Operator_times A scalar :
  is_LinearOperator A = false →
  operator_times A (VNumber scalar)
    = OperatorLeftScalarMultiplication_init A scalar ∧
  times_operator (VNumber scalar) A
    = OperatorRightScalarMultiplication_init A scalar.
Proof.
  intros Hl. unfold operator_times, times_operator, method_mul, method_rmul.
  by rewrite Hl.
Qed.


(** ** What each method computes *)

(** Invert a run of a method body, statement by statement. *)
Ltac run_inv H :=
  repeat match type of H with
  | (_ ≫= _) _ = Ok _ =>
      let H1 := fresh "Hstep" in
      apply bind_Ok in H as (? & ? & H1 & H);
      try (injection H1 as <- <-)
  end;
  repeat match goal with u : unit |- _ => destruct u end.

Lemma Concrete_applyImpl_computes f : computes f (Concrete_applyImpl f).
Proof.
  intros rhs out σ σ' [= <-] Hr Ho. split; [split|]; simpl.
  - done.
  - intros l _ Hl. by rewrite lookup_insert_ne.
  - intros _. by rewrite lookup_insert_eq.
Qed.

Lemma no_such_method_computes f : computes f no_such_method.
Proof. by intros rhs out σ σ' ?. Qed.

Lemma Operator_apply_computes f dom ran p :
  computes f p → computes f (Operator_apply dom ran p).
Proof.
  intros Hp rhs out σ σ'. unfold Operator_apply.
  repeat case_match; try done. apply Hp.
Qed.

Lemma LinearOperator_applyAdjoint_computes f dom ran p :
  computes f p → computes f (LinearOperator_applyAdjoint dom ran p).
Proof.
  intros Hp rhs out σ σ'. unfold LinearOperator_applyAdjoint.
  repeat case_match; try done. apply Hp.
Qed.

(** The pattern shared by [OperatorSum.applyImpl],
    [OperatorPointwiseProduct.applyImpl] and
    [LinearOperatorSum.applyAdjointImpl]: evaluate into [out], evaluate into a
    new temporary, combine in place. *)
Lemma accumulate_computes (combine : Vec → Vec → Vec) (S : Space) f1 f2 p1 p2 :
  computes f1 p1 → computes f2 p2 →
  computes (λ v, combine (f1 v) (f2 v))
    (λ rhs out,
       tmp ← Space_empty S;
       p1 rhs out;;
       p2 rhs tmp;;
       ((λ σ, assign out (combine (read σ out) (read σ tmp)) σ) : eff unit)).
Proof.
  intros H1 H2 rhs out σ σ' Hrun Hr Ho. run_inv Hrun.
  apply H1 in Hstep as [[Hn1 Hf1] Hc1]; simpl in *; [lia..|].
  apply H2 in Hstep0 as [[Hn2 Hf2] Hc2]; simpl in *; [lia..|].
  injection Hrun as <-.
  split; [split|]; simpl.
  - lia.
  - intros l Hl Hlo. rewrite lookup_insert_ne by done.
    rewrite Hf2 by lia. rewrite Hf1 by lia. apply lookup_insert_ne. lia.
  - intros Hne. rewrite lookup_insert_eq. f_equal. f_equal.
    + apply read_Some. rewrite Hf2 by lia. rewrite Hc1 by done.
      by rewrite read_insert_ne by lia.
    + apply read_Some. simpl. rewrite Hc2 by lia. f_equal. f_equal.
      unfold read. rewrite !lookup_total_alt, Hf1 by lia.
      by rewrite lookup_insert_ne by lia.
Qed.

Lemma OperatorSum_applyImpl_computes S f1 f2 p1 p2 :
  computes f1 p1 → computes f2 p2 →
  computes (λ v, iadd (f1 v) (f2 v)) (OperatorSum_applyImpl S p1 p2).
Proof. apply (accumulate_computes iadd). Qed.

Lemma OperatorPointwiseProduct_applyImpl_computes S f1 f2 p1 p2 :
  computes f1 p1 → computes f2 p2 →
  computes (λ v, imul (f1 v) (f2 v)) (OperatorPointwiseProduct_applyImpl S p1 p2).
Proof. apply (accumulate_computes imul). Qed.

Lemma LinearOperatorSum_applyAdjointImpl_computes S f1 f2 p1 p2 :
  computes f1 p1 → computes f2 p2 →
  computes (λ v, iadd (f1 v) (f2 v)) (LinearOperatorSum_applyAdjointImpl S p1 p2).
Proof. apply (accumulate_computes iadd). Qed.

(** The pattern shared by [OperatorComposition.applyImpl] and
    [LinearOperatorComposition.applyAdjointImpl]: evaluate the first operator
    into a new temporary, the second from the temporary into [out]. *)
Lemma chain_result (S : Space) f1 f2 p1 p2 rhs out σ σ' :
  computes f1 p1 → computes f2 p2 →
  (tmp ← Space_empty S; p1 rhs tmp;; p2 tmp out) σ = Ok (tt, σ') →
  store rhs < next σ → store out < next σ →
  writes_only out σ σ' ∧ mem σ' !! store out = Some (f2 (f1 (read σ rhs))).
Proof.
  intros H1 H2 Hrun Hr Ho. run_inv Hrun.
  apply H1 in Hstep as [[Hn1 Hf1] Hc1]; simpl in *; [lia..|].
  apply H2 in Hrun as [[Hn2 Hf2] Hc2]; simpl in *; [lia..|].
  split; [split|].
  - lia.
  - intros l Hl Hlo. rewrite Hf2 by lia. rewrite Hf1 by lia.
    apply lookup_insert_ne. lia.
  - rewrite Hc2 by lia. f_equal. f_equal.
    apply read_Some. simpl. rewrite Hc1 by lia. f_equal. f_equal.
    apply read_insert_ne. lia.
Qed.

Lemma chain_computes (S : Space) f1 f2 p1 p2 :
  computes f1 p1 → computes f2 p2 →
  computes (λ v, f2 (f1 v))
    (λ rhs out, tmp ← Space_empty S; p1 rhs tmp;; p2 tmp out).
Proof.
  intros H1 H2 rhs out σ σ' Hrun Hr Ho.
  destruct (chain_result S f1 f2 p1 p2 rhs out σ σ' H1 H2 Hrun Hr Ho). auto.
Qed.

Lemma OperatorComposition_applyImpl_computes S f1 f2 p1 p2 :
  computes f1 p1 → computes f2 p2 →
  computes (λ v, f1 (f2 v)) (OperatorComposition_applyImpl S p1 p2).
Proof. intros H1 H2. apply (chain_computes S f2 f1 p2 p1 H2 H1). Qed.

Lemma LinearOperatorComposition_applyAdjointImpl_computes S f1 f2 p1 p2 :
  computes f1 p1 → computes f2 p2 →
  computes (λ v, f2 (f1 v)) (LinearOperatorComposition_applyAdjointImpl S p1 p2).
Proof. apply chain_computes. Qed.

(** Evaluate into [out], then scale [out] in place. *)
Lemma OperatorLeftScalarMultiplication_applyImpl_computes f p scalar :
  computes f p →
  computes (λ v, iscale (f v) scalar)
    (OperatorLeftScalarMultiplication_applyImpl p scalar).
Proof.
  intros H1 rhs out σ σ' Hrun Hr Ho.
  unfold OperatorLeftScalarMultiplication_applyImpl in Hrun. run_inv Hrun.
  apply H1 in Hstep as [[Hn1 Hf1] Hc1]; [lia..|].
  injection Hrun as <-.
  split; [split|]; simpl.
  - done.
  - intros l Hl Hlo. rewrite lookup_insert_ne by done. by apply Hf1.
  - intros Hne. rewrite lookup_insert_eq. f_equal. f_equal.
    apply read_Some. by apply Hc1.
Qed.

Lemma LinearOperatorScalarMultiplication_applyAdjointImpl_computes f p scalar :
  computes f p →
  computes (λ v, iscale (f v) scalar)
    (LinearOperatorScalarMultiplication_applyAdjointImpl p scalar).
Proof. apply OperatorLeftScalarMultiplication_applyImpl_computes. Qed.

(** Copy [rhs], scale the copy in place, evaluate from the copy into [out]. *)
Lemma OperatorRightScalarMultiplication_applyImpl_computes f p scalar :
  computes f p →
  computes (λ v, f (iscale v scalar))
    (OperatorRightScalarMultiplication_applyImpl p scalar).
Proof.
  intros H1 rhs out σ σ' Hrun Hr Ho.
  unfold OperatorRightScalarMultiplication_applyImpl in Hrun. run_inv Hrun.
  apply H1 in Hrun as [[Hn1 Hf1] Hc1]; simpl in *; [lia..|].
  split; [split|].
  - lia.
  - intros l Hl Hlo. rewrite Hf1 by lia.
    rewrite !lookup_insert_ne by lia. done.
  - intros Hne. rewrite Hc1 by lia. f_equal. f_equal.
    apply read_Some. simpl. rewrite lookup_insert_eq. f_equal. f_equal.
    apply read_Some. simpl. by rewrite lookup_insert_eq.
Qed.

(** The unchecked primitives compute the maps of the docstrings. *)
Lemma applyImpl_computes op :
  computes (map_of op) (applyImpl op) ∧
  computes (adjoint_map_of op) (applyAdjointImpl op).
Proof.
  induction op as
    [ dom ran f | dom ran f g | dom ran f
    | op1 [IH1 IH1'] op2 [IH2 IH2'] | opl [IHl IHl'] opr [IHr IHr']
    | op1 [IH1 IH1'] op2 [IH2 IH2'] | op [IH IH'] a | op [IH IH'] a
    | op [IH IH'] | op1 [IH1 IH1'] op2 [IH2 IH2']
    | opl [IHl IHl'] opr [IHr IHr'] | op [IH IH'] a ]; simpl; split;
    try apply no_such_method_computes.
  - apply Concrete_applyImpl_computes.
  - apply Concrete_applyImpl_computes.
  - apply Concrete_applyImpl_computes.
  - apply Concrete_applyImpl_computes.
  - apply (Concrete_applyImpl_computes f).
  - by apply OperatorSum_applyImpl_computes.
  - by apply OperatorComposition_applyImpl_computes.
  - by apply OperatorPointwiseProduct_applyImpl_computes.
  - by apply OperatorLeftScalarMultiplication_applyImpl_computes.
  - by apply OperatorRightScalarMultiplication_applyImpl_computes.
  - done.
  - done.
  - by apply OperatorSum_applyImpl_computes.
  - by apply LinearOperatorSum_applyAdjointImpl_computes.
  - by apply OperatorComposition_applyImpl_computes.
  - apply LinearOperatorComposition_applyAdjointImpl_computes;
      case_match; auto using LinearOperator_applyAdjoint_computes,
                             no_such_method_computes.
  - by apply OperatorLeftScalarMultiplication_applyImpl_computes.
  - by apply LinearOperatorScalarMultiplication_applyAdjointImpl_computes.
Qed.

(** ** When each method returns *)

Section Returns.
Context `{!SpaceLaws Space Scalar Vec}.

Lemma succeeds_weaken dom ran p : succeeds dom ran p → succeeds_checked dom ran p.
Proof. intros Hp rhs out σ ? ? ? ? _. by apply Hp. Qed.

Lemma Concrete_applyImpl_succeeds dom ran f : succeeds dom ran (Concrete_applyImpl f).
Proof. intros rhs out σ _ _ _ _. eexists. split; [reflexivity|done]. Qed.

Lemma Operator_apply_succeeds dom ran p :
  succeeds dom ran p → succeeds_checked dom ran (Operator_apply dom ran p).
Proof.
  intros Hp rhs out σ Hr Ho ? ? Hne. unfold Operator_apply.
  rewrite Hr, Ho. simpl. rewrite bool_decide_eq_false_2 by done. by apply Hp.
Qed.

Lemma LinearOperator_applyAdjoint_succeeds dom ran p :
  succeeds ran dom p →
  succeeds_checked ran dom (LinearOperator_applyAdjoint dom ran p).
Proof.
  intros Hp rhs out σ Hr Ho ? ? Hne. unfold LinearOperator_applyAdjoint.
  rewrite Hr, Ho. simpl. rewrite bool_decide_eq_false_2 by done. by apply Hp.
Qed.

Lemma accumulate_succeeds (combine : Vec → Vec → Vec) dom ran p1 p2 :
  succeeds dom ran p1 → succeeds dom ran p2 →
  succeeds dom ran
    (λ rhs out,
       tmp ← Space_empty ran;
       p1 rhs out;;
       p2 rhs tmp;;
       ((λ σ, assign out (combine (read σ out) (read σ tmp)) σ) : eff unit)).
Proof.
  intros H1 H2 rhs out σ Hr Ho Hir Hio.
  unfold mbind, eff_mbind, eff_bind. simpl.
  destruct (H1 rhs out (State (S (next σ)) (<[next σ:=uninitialised ran]> (mem σ))))
    as (σ1 & -> & Hn1); [done|done|simpl; lia|simpl; lia|].
  destruct (H2 rhs (Buffer (next σ) ran (next σ)) σ1)
    as (σ2 & -> & Hn2); [done|apply isMember_empty|simpl in *; lia..|].
  eexists. split; [reflexivity|]. simpl in *. lia.
Qed.

Lemma chain_succeeds dom mid ran p1 p2 :
  succeeds_checked dom mid p1 → succeeds_checked mid ran p2 →
  succeeds dom ran (λ rhs out, tmp ← Space_empty mid; p1 rhs tmp;; p2 tmp out).
Proof.
  intros H1 H2 rhs out σ Hr Ho Hir Hio.
  unfold mbind, eff_mbind, eff_bind. simpl.
  destruct (H1 rhs (Buffer (next σ) mid (next σ))
              (State (S (next σ)) (<[next σ:=uninitialised mid]> (mem σ))))
    as (σ1 & -> & Hn1); [done|apply isMember_empty|simpl; lia..|].
  destruct (H2 (Buffer (next σ) mid (next σ)) out σ1)
    as (σ2 & -> & Hn2); [apply isMember_empty|done|simpl in *; lia..|].
  exists σ2. split; [done|]. simpl in *. lia.
Qed.

Lemma OperatorLeftScalarMultiplication_applyImpl_succeeds dom ran p scalar :
  succeeds dom ran p →
  succeeds dom ran (OperatorLeftScalarMultiplication_applyImpl p scalar).
Proof.
  intros H1 rhs out σ Hr Ho Hir Hio.
  unfold OperatorLeftScalarMultiplication_applyImpl, mbind, eff_mbind, eff_bind.
  destruct (H1 rhs out σ) as (σ1 & -> & Hn1); [done..|].
  eexists. split; [reflexivity|done].
Qed.

Lemma OperatorRightScalarMultiplication_applyImpl_succeeds dom ran p scalar :
  succeeds dom ran p →
  succeeds dom ran (OperatorRightScalarMultiplication_applyImpl p scalar).
Proof.
  intros H1 rhs out σ Hr Ho Hir Hio.
  unfold OperatorRightScalarMultiplication_applyImpl, mbind, eff_mbind, eff_bind.
  simpl.
  match goal with |- context [p ?b out ?σ1] =>
    destruct (H1 b out σ1) as (σ2 & -> & Hn2);
      [by apply isMember_copy|done|simpl; lia..|]
  end.
  exists σ2. split; [done|]. simpl in *. lia.
Qed.

(** An operator whose nodes passed the checks of their constructors returns
    from its primitives on members of its spaces. *)
Lemma applyImpl_succeeds op :
  constructed op = true →
  succeeds (domain op) (range op) (applyImpl op) ∧
  (is_LinearOperator op = true →
   succeeds (range op) (domain op) (applyAdjointImpl op)).
Proof.
  induction op as
    [ dom ran f | dom ran f g | dom ran f
    | op1 IH1 op2 IH2 | opl IHl opr IHr
    | op1 IH1 op2 IH2 | op IH a | op IH a
    | op IH | op1 IH1 op2 IH2
    | opl IHl opr IHr | op IH a ]; simpl; intros Hc;
    repeat (apply andb_prop in Hc as [Hc ?]);
    repeat match goal with
           | H : bool_decide _ = true |- _ => apply bool_decide_eq_true_1 in H
           end;
    repeat match goal with
           | IH : constructed ?o = true → _, H : constructed ?o = true |- _ =>
               destruct (IH H); clear IH
           end;
    repeat match goal with
           | IH : is_LinearOperator ?o = true → _,
             H : is_LinearOperator ?o = true |- _ => specialize (IH H)
           end;
    repeat match goal with
           | H : is_LinearOperator _ = true |- _ => rewrite H; clear H
           end;
    repeat match goal with
           | H : @eq Space _ _ |- _ => rewrite H in *; clear H
           end;
    (split; [|try done; intros _]);
    try apply Concrete_applyImpl_succeeds;
    try (by apply (accumulate_succeeds iadd));
    try (by apply (accumulate_succeeds imul));
    try (by apply chain_succeeds; apply succeeds_weaken);
    try (by apply OperatorLeftScalarMultiplication_applyImpl_succeeds);
    try (by apply OperatorRightScalarMultiplication_applyImpl_succeeds);
    try (by apply chain_succeeds; apply LinearOperator_applyAdjoint_succeeds).
  assumption.
Qed.

(** ** The checked entry points and [__call__] *)

Lemma apply_computes op : computes (map_of op) (apply op).
Proof. apply Operator_apply_computes, applyImpl_computes. Qed.

Lemma applyAdjoint_computes op : computes (adjoint_map_of op) (applyAdjoint op).
Proof.
  unfold applyAdjoint. case_match.
  - apply LinearOperator_applyAdjoint_computes, applyImpl_computes.
  - apply no_such_method_computes.
Qed.

Lemma apply_succeeds op :
  constructed op = true →
  succeeds_checked (domain op) (range op) (apply op).
Proof. intros. by apply Operator_apply_succeeds, applyImpl_succeeds. Qed.

Lemma applyAdjoint_succeeds op :
  constructed op = true → is_LinearOperator op = true →
  succeeds_checked (range op) (domain op) (applyAdjoint op).
Proof.
  intros Hc Hl. unfold applyAdjoint. rewrite Hl.
  by apply LinearOperator_applyAdjoint_succeeds, applyImpl_succeeds.
Qed.

(** [op(x)] returns a new buffer of the range that holds the image of the
    contents of [x]; nothing that existed is written. *)
Lemma call_returns op x σ :
  constructed op = true → isMember (domain op) x = true → allocated σ x →
  ∃ σ',
    call op x σ = Ok (Buffer (next σ) (range op) (next σ), σ') ∧
    next σ < next σ' ∧
    mem σ' !! next σ = Some (map_of op (read σ x)) ∧
    ∀ l, l < next σ → mem σ' !! l = mem σ !! l.
Proof.
  intros Hc Hx [Hix Hsx]. unfold call, Operator_call.
  erewrite bind_run by reflexivity. cbv beta.
  set (tmp := Buffer (next σ) (range op) (next σ)).
  set (σ1 := State (S (next σ)) (<[next σ:=uninitialised (range op)]> (mem σ))).
  destruct (apply_succeeds op Hc x tmp σ1) as (σ2 & Hrun & Hn);
    [done|apply isMember_empty|simpl; lia..|].
  erewrite bind_run by exact Hrun. exists σ2.
  destruct (apply_computes op x tmp σ1 σ2 Hrun) as [[_ Hf] Hv];
    [simpl; lia..|].
  subst tmp σ1. simpl in *. split_and!.
  - done.
  - lia.
  - rewrite Hv by lia. by rewrite read_insert_ne by lia.
  - intros l Hl. rewrite Hf by lia. apply lookup_insert_ne. lia.
Qed.

Lemma call_returned op x σ :
  constructed op = true → isMember (domain op) x = true → allocated σ x →
  returned (call op x σ) = Some (map_of op (read σ x)).
Proof.
  intros Hc Hx Ha. destruct (call_returns op x σ Hc Hx Ha) as (σ' & -> & _ & Hv & _).
  simpl. f_equal. by apply read_Some.
Qed.

(** ** Sum and composition *)

(** C3. For operators [A] and [B] with equal domains and equal ranges and every
    [x] of the shared domain, [OperatorSum(A, B)(x)] is [A(x) + B(x)]; the
    evaluation of the sum writes the result of [A] into [out], evaluates [B]
    into a new temporary from [range.empty()] and adds the temporary to [out]
    in place. *)
Theorem sum_call_pointwise A B x σ :
  constructed A = true → constructed B = true →
  domain A = domain B → range A = range B →
  isMember (domain A) x = true → allocated σ x →
  OperatorSum_init A B = Ok (OperatorSum A B) ∧
  (∃ a b,
     returned (call A x σ) = Some a ∧
     returned (call B x σ) = Some b ∧
     returned (call (OperatorSum A B) x σ) = Some (iadd a b)) ∧
  (∀ rhs out,
     applyImpl (OperatorSum A B) rhs out =
       (tmp ← Space_empty (range (OperatorSum A B));
        applyImpl A rhs out;;
        applyImpl B rhs tmp;;
        buffer_iadd out tmp)).
Proof.
  intros HA HB Hd Hr Hx Hal. split_and!.
  - unfold OperatorSum_init.
    by rewrite !bool_decide_eq_false_2 by (intros ?; congruence).
  - exists (map_of A (read σ x)), (map_of B (read σ x)). split_and!.
    + by apply call_returned.
    + apply call_returned; [done| by rewrite <- Hd |done].
    + apply (call_returned (OperatorSum A B)); [|done..].
      simpl. rewrite HA, HB. simpl. by rewrite !bool_decide_eq_true_2.
  - reflexivity.
Qed.

(** C4. For operators [A] (left) and [B] (right) with [B.range] equal to
    [A.domain] and every [x] of the domain of [B],
    [OperatorComposition(A, B)(x)] is [A(B(x))]; the domain of the composition
    is that of [B] and its range that of [A]; the evaluation evaluates [B] into
    a temporary from [B.range.empty()] and then [A] from that temporary into
    [out]. *)
Theorem composition_call_in_sequence A B x σ :
  constructed A = true → constructed B = true →
  range B = domain A →
  isMember (domain B) x = true → allocated σ x →
  OperatorComposition_init A B = Ok (OperatorComposition A B) ∧
  domain (OperatorComposition A B) = domain B ∧
  range (OperatorComposition A B) = range A ∧
  (∃ y σ1 z σ2,
     call B x σ = Ok (y, σ1) ∧
     call A y σ1 = Ok (z, σ2) ∧
     returned (call (OperatorComposition A B) x σ) = Some (read σ2 z)) ∧
  (∀ rhs out,
     applyImpl (OperatorComposition A B) rhs out =
       (tmp ← Space_empty (range B);
        applyImpl B rhs tmp;;
        applyImpl A tmp out)).
Proof.
  intros HA HB Hr Hx Hal. split_and!; try reflexivity.
  - unfold OperatorComposition_init.
    by rewrite bool_decide_eq_false_2 by (intros ?; congruence).
  - destruct (call_returns B x σ HB Hx Hal) as (σ1 & HcB & Hn1 & Hv1 & Hf1).
    set (y := Buffer (next σ) (range B) (next σ)) in *.
    assert (Hy : isMember (domain A) y = true)
      by (rewrite <- Hr; apply isMember_empty).
    assert (Hay : allocated σ1 y) by (split; simpl; lia).
    destruct (call_returns A y σ1 HA Hy Hay) as (σ2 & HcA & Hn2 & Hv2 & Hf2).
    eexists y, σ1, _, σ2. split_and!; [done..|].
    rewrite (call_returned (OperatorComposition A B)); [|simpl|done..].
    + f_equal. simpl. symmetry. apply read_Some. simpl. rewrite Hv2.
      f_equal. f_equal. by apply read_Some.
    + rewrite HA, HB. simpl. by rewrite bool_decide_eq_true_2.
Qed.

(** ** The adjoint of a composition *)

(** C6. For linear operators [L] and [R] with [R.range] equal to [L.domain], the
    adjoint of [LinearOperatorComposition(L, R)] reverses the order:
    [applyAdjoint(y, out)] evaluates the adjoint of [L] at [y] into a temporary
    from [L.domain], then the adjoint of [R] from that temporary into [out], so
    [out] holds the adjoint of [R] applied to the adjoint of [L] applied to
    [y]. *)
Theorem composition_adjoint_reverses L R y out σ :
  constructed L = true → constructed R = true →
  is_LinearOperator L = true → is_LinearOperator R = true →
  range R = domain L →
  isMember (range L) y = true → isMember (domain R) out = true →
  allocated σ y → allocated σ out → ident y ≠ ident out →
  LinearOperatorComposition_init L R = Ok (LinearOperatorComposition L R) ∧
  (∀ rhs out',
     applyAdjointImpl (LinearOperatorComposition L R) rhs out' =
       (tmp ← Space_empty (domain L);
        applyAdjoint L rhs tmp;;
        applyAdjoint R tmp out')) ∧
  (∃ LT RT t σ1 z σ2 σ',
     T L = Ok LT ∧ T R = Ok RT ∧
     call LT y σ = Ok (t, σ1) ∧
     call RT t σ1 = Ok (z, σ2) ∧
     applyAdjoint (LinearOperatorComposition L R) y out σ = Ok (tt, σ') ∧
     read σ' out = read σ2 z).
Proof.
  intros HL HR HlL HlR Hr Hy Ho [Hiy Hsy] [Hio Hso] Hne. split_and!.
  - unfold LinearOperatorComposition_init, OperatorComposition_init.
    rewrite HlL, HlR. simpl.
    by rewrite bool_decide_eq_false_2 by (intros ?; congruence).
  - reflexivity.
  - assert (HLT : constructed (OperatorAdjoint L) = true) by (simpl; by rewrite HL, HlL).
    assert (HRT : constructed (OperatorAdjoint R) = true) by (simpl; by rewrite HR, HlR).
    destruct (call_returns (OperatorAdjoint L) y σ HLT Hy) as (σ1 & Hc1 & Hn1 & Hv1 & Hf1);
      [done|].
    simpl in Hc1, Hv1.
    set (t := Buffer (next σ) (domain L) (next σ)) in *.
    assert (Ht : isMember (domain (OperatorAdjoint R)) t = true)
      by (simpl; rewrite Hr; apply isMember_empty).
    destruct (call_returns (OperatorAdjoint R) t σ1 HRT Ht) as (σ2 & Hc2 & Hn2 & Hv2 & Hf2);
      [split; simpl; lia|].
    simpl in Hc2, Hv2.
    assert (HC : constructed (LinearOperatorComposition L R) = true).
    { simpl. rewrite HL, HR, HlL, HlR. simpl. by apply bool_decide_eq_true_2. }
    destruct (applyAdjoint_succeeds _ HC eq_refl y out σ) as (σ' & Hrun & Hn');
      [done..|].
    exists (OperatorAdjoint L), (OperatorAdjoint R), t, σ1.
    eexists _, σ2, σ'.
    split_and!; [| |exact Hc1|exact Hc2|exact Hrun|].
    + unfold T. by rewrite HlL; unfold OperatorAdjoint_init; rewrite HlL.
    + unfold T. by rewrite HlR; unfold OperatorAdjoint_init; rewrite HlR.
    + unfold applyAdjoint, LinearOperator_applyAdjoint in Hrun. simpl in Hrun.
      rewrite Hy, Ho in Hrun. simpl in Hrun.
      rewrite bool_decide_eq_false_2 in Hrun by done.
      rewrite HlL, HlR in Hrun.
      apply (chain_result _ (adjoint_map_of L) (adjoint_map_of R)) in Hrun
        as [_ Hv];
        [|apply LinearOperator_applyAdjoint_computes, applyImpl_computes..
         |done|done].
      rewrite (read_Some _ _ _ Hv). symmetry. apply read_Some. simpl.
      rewrite Hv2. f_equal. f_equal. by apply read_Some.
Qed.

(** ** The checks of [apply] *)

(** C2, amended.  [apply(rhs, out)] raises the domain error when [rhs] is not a
    member of the domain; otherwise the range error when [out] is not a member
    of the range; otherwise the aliasing error when [rhs] and [out] are the
    same object; otherwise it delegates to [applyImpl], and for an operator of
    any class, composites included, built by the constructors it returns. *)
Theorem apply_checks op rhs out σ :
  (isMember (domain op) rhs = false →
   apply op rhs out σ = Raise DomainError) ∧
  (isMember (domain op) rhs = true → isMember (range op) out = false →
   apply op rhs out σ = Raise RangeError) ∧
  (isMember (domain op) rhs = true → isMember (range op) out = true →
   ident rhs = ident out →
   apply op rhs out σ = Raise AliasingError) ∧
  (isMember (domain op) rhs = true → isMember (range op) out = true →
   ident rhs ≠ ident out →
   apply op rhs out σ = applyImpl op rhs out σ ∧
   (constructed op = true → ident rhs < next σ → ident out < next σ →
    ∃ σ', apply op rhs out σ = Ok (tt, σ'))).
Proof.
  unfold apply at 1 2 3 4, Operator_apply. split_and!.
  - by intros ->.
  - by intros -> ->.
  - intros -> -> Hi. simpl. by rewrite bool_decide_eq_true_2.
  - intros Hr Ho Hi. rewrite Hr, Ho. simpl.
    rewrite bool_decide_eq_false_2 by done. split; [done|].
    intros Hc ? ?. destruct (apply_succeeds op Hc rhs out σ) as (σ' & ? & _); eauto.
Qed.

(** C10. The aliasing check of [apply] and of [applyAdjoint] compares
    identities: with both buffers members of their spaces, the call is rejected
    as aliased exactly when [rhs] and [out] are the same object.  Two distinct
    objects are accepted and the call returns, whatever their contents and
    their storage, equal contents and one shared storage included. *)
Theorem aliasing_check_is_identity op rhs out σ :
  constructed op = true → ident rhs < next σ → ident out < next σ →
  (isMember (domain op) rhs = true → isMember (range op) out = true →
   (apply op rhs out σ = Raise (ValueError aliased_arguments)
    ↔ ident rhs = ident out) ∧
   (ident rhs ≠ ident out →
    apply op rhs out σ = applyImpl op rhs out σ ∧
    ∃ σ', apply op rhs out σ = Ok (tt, σ'))) ∧
  (is_LinearOperator op = true →
   isMember (range op) rhs = true → isMember (domain op) out = true →
   (applyAdjoint op rhs out σ = Raise (ValueError aliased_adjoint_arguments)
    ↔ ident rhs = ident out) ∧
   (ident rhs ≠ ident out →
    applyAdjoint op rhs out σ = applyAdjointImpl op rhs out σ ∧
    ∃ σ', applyAdjoint op rhs out σ = Ok (tt, σ'))).
Proof.
  intros Hc Hir Hio. split.
  - intros Hr Ho.
    assert (Hacc : ident rhs ≠ ident out →
      apply op rhs out σ = applyImpl op rhs out σ ∧
      ∃ σ', apply op rhs out σ = Ok (tt, σ')).
    { intros Hne. split.
      - unfold apply, Operator_apply. rewrite Hr, Ho. simpl.
        by rewrite bool_decide_eq_false_2.
      - destruct (apply_succeeds op Hc rhs out σ) as (σ' & ? & _); eauto. }
    split; [split|done].
    + intros Hraise. destruct (decide (ident rhs = ident out)) as [|Hne]; [done|].
      destruct (Hacc Hne) as [_ [σ' Hok]]. congruence.
    + intros Hi. unfold apply, Operator_apply. rewrite Hr, Ho. simpl.
      by rewrite bool_decide_eq_true_2.
  - intros Hl Hr Ho.
    assert (Hacc : ident rhs ≠ ident out →
      applyAdjoint op rhs out σ = applyAdjointImpl op rhs out σ ∧
      ∃ σ', applyAdjoint op rhs out σ = Ok (tt, σ')).
    { intros Hne. split.
      - unfold applyAdjoint, LinearOperator_applyAdjoint. rewrite Hl, Hr, Ho.
        simpl. by rewrite bool_decide_eq_false_2.
      - destruct (applyAdjoint_succeeds op Hc Hl rhs out σ) as (σ' & ? & _); eauto. }
    split; [split|done].
    + intros Hraise. destruct (decide (ident rhs = ident out)) as [|Hne]; [done|].
      destruct (Hacc Hne) as [_ [σ' Hok]]. congruence.
    + intros Hi. unfold applyAdjoint, LinearOperator_applyAdjoint.
      rewrite Hl, Hr, Ho. simpl. by rewrite bool_decide_eq_true_2.
Qed.

(** ** Scalar multiples *)

(** The contract carries over to the map of the docstring. *)
Lemma homogeneous_map_of A scalar x σ :
  constructed A = true → homogeneous A scalar →
  isMember (domain A) x = true → allocated σ x →
  map_of A (iscale (read σ x) scalar) = iscale (map_of A (read σ x)) scalar.
Proof.
  intros HA Hh Hx [Hix Hsx].
  set (ax := Buffer (next σ) (home x) (next σ)).
  set (τ := State (S (next σ)) (<[next σ := iscale (read σ x) scalar]> (mem σ))).
  assert (Hrx : read τ x = read σ x) by (apply read_insert_ne; lia).
  assert (Hrax : read τ ax = iscale (read σ x) scalar).
  { apply read_Some. simpl. by rewrite lookup_insert_eq. }
  assert (Hax : isMember (domain A) ax = true) by by apply isMember_copy.
  assert (Halx : allocated τ x) by (split; simpl; lia).
  assert (Halax : allocated τ ax) by (split; simpl; lia).
  destruct (Hh τ x ax) as (v & Hv & Hav); [done..|by rewrite Hrx|].
  rewrite call_returned in Hv, Hav by done.
  rewrite Hrx in Hv. rewrite Hrax in Hav. congruence.
Qed.

(** [LinearOperator] binds one method to both directions of [*]. *)
Lemma LinearOperator_times A scalar :
  is_LinearOperator A = true →
  operator_times A (VNumber scalar) = LinearOperatorScalarMultiplication_init A scalar ∧
  times_operator (VNumber scalar) A = LinearOperatorScalarMultiplication_init A scalar.
Proof.
  intros Hl. unfold operator_times, times_operator, method_mul, method_rmul.
  by rewrite Hl.
Qed.

(** C7. For a linear operator [A], a scalar and an input [x],
    [OperatorLeftScalarMultiplication(A, a)(x)] equals
    [OperatorRightScalarMultiplication(A, a)(x)], and both directions of [*]
    on a linear operator build the one combinator
    [LinearOperatorScalarMultiplication]; for some operator that is not linear
    the left and the right product differ. *)
Theorem linear_scalar_multiplication A scalar x σ L R :
  constructed A = true → is_LinearOperator A = true →
  homogeneous A scalar →
  OperatorLeftScalarMultiplication_init A scalar = Ok L →
  OperatorRightScalarMultiplication_init A scalar = Ok R →
  isMember (domain A) x = true → allocated σ x →
  (∃ v, returned (call L x σ) = Some v ∧ returned (call R x σ) = Some v) ∧
  (operator_times A (VNumber scalar)
     = Ok (LinearOperatorScalarMultiplication A scalar) ∧
   times_operator (VNumber scalar) A
     = Ok (LinearOperatorScalarMultiplication A scalar)) ∧
  (∃ (N : operator nat Z (list Z)) (b : Z) (z : buffer nat) (τ : state (list Z))
     l r u w,
     is_LinearOperator N = false ∧
     OperatorLeftScalarMultiplication_init N b = Ok l ∧
     OperatorRightScalarMultiplication_init N b = Ok r ∧
     returned (call l z τ) = Some u ∧
     returned (call r z τ) = Some w ∧
     u ≠ w).
Proof.
  intros HA Hl Hh HL HR Hx Hal.
  unfold OperatorLeftScalarMultiplication_init in HL.
  unfold OperatorRightScalarMultiplication_init in HR.
  destruct (field_isMember (range A) scalar) eqn:Hfr; [|discriminate HL].
  destruct (field_isMember (domain A) scalar) eqn:Hfd; [|discriminate HR].
  injection HL as <-. injection HR as <-. split_and!.
  - exists (iscale (map_of A (read σ x)) scalar). split.
    + apply (call_returned (OperatorLeftScalarMultiplication A scalar)); [|done..].
      simpl. by rewrite HA, Hfr.
    + rewrite (call_returned (OperatorRightScalarMultiplication A scalar));
        [|simpl; by rewrite HA, Hfd|done..].
      simpl. f_equal. by apply homogeneous_map_of.
  - rewrite (proj1 (LinearOperator_times A scalar Hl)).
    unfold LinearOperatorScalarMultiplication_init,
      OperatorLeftScalarMultiplication_init. by rewrite Hl, Hfr.
  - rewrite (proj2 (LinearOperator_times A scalar Hl)).
    unfold LinearOperatorScalarMultiplication_init,
      OperatorLeftScalarMultiplication_init. by rewrite Hl, Hfr.
  - exists squaring, 2%Z, x0, σ0.
    exists (OperatorLeftScalarMultiplication squaring 2%Z).
    exists (OperatorRightScalarMultiplication squaring 2%Z).
    exists [2; 8; 18]%Z, [4; 16; 36]%Z.
    split_and!; [reflexivity..|by vm_compute|by vm_compute|discriminate].
Qed.

End Returns.

(** ** Adjoints *)

(** C5. For a linear operator [A], the adjoint of its adjoint behaves as [A]:
    it has the domain and the range of [A], its forward evaluation is that of
    [A] and its adjoint evaluation is that of [A], on every input. *)
Theorem double_adjoint A :
  is_LinearOperator A = true →
  ∃ AT ATT,
    T A = Ok AT ∧ T AT = Ok ATT ∧
    domain ATT = domain A ∧ range ATT = range A ∧
    (∀ rhs out σ, apply ATT rhs out σ = apply A rhs out σ) ∧
    (∀ rhs out σ, applyAdjoint ATT rhs out σ = applyAdjoint A rhs out σ).
Proof.
  intros Hl. exists (OperatorAdjoint A), (OperatorAdjoint (OperatorAdjoint A)).
  split_and!.
  - unfold T, OperatorAdjoint_init. by rewrite Hl.
  - reflexivity.
  - reflexivity.
  - reflexivity.
  - reflexivity.
  - intros rhs out σ. unfold applyAdjoint. by rewrite Hl.
Qed.

(** C8. For a self-adjoint operator and every input and output buffer valid
    for both entry points, [applyAdjoint(x, out)] gives the result of
    [apply(x, out)]: the adjoint primitive delegates to the forward one. *)
Theorem selfadjoint_applyAdjoint_is_apply self x out σ :
  is_SelfAdjointOperator self = true →
  isMember (domain self) x = true → isMember (range self) out = true →
  isMember (range self) x = true → isMember (domain self) out = true →
  ident x ≠ ident out →
  (∀ rhs out' τ, applyAdjointImpl self rhs out' τ = applyImpl self rhs out' τ) ∧
  applyAdjoint self x out σ = apply self x out σ ∧
  ∃ σ', apply self x out σ = Ok (tt, σ').
Proof.
  intros Hs Hx Ho Hx' Ho' Hne.
  destruct self; try discriminate Hs. simpl in *. split_and!.
  - reflexivity.
  - unfold applyAdjoint, apply, LinearOperator_applyAdjoint, Operator_apply.
    simpl. rewrite Hx, Ho, Hx', Ho'. simpl.
    by rewrite bool_decide_eq_false_2.
  - unfold apply, Operator_apply. simpl. rewrite Hx, Ho. simpl.
    rewrite bool_decide_eq_false_2 by done. by eexists.
Qed.

(** ** The input is not written *)

(** C9, amended.  A call [apply(rhs, out)] that returns has written, of what
    existed, the storage of [out] only; so [rhs] is unmodified whenever it does
    not share the storage of [out].  [OperatorRightScalarMultiplication] scales
    a copy of [rhs] on a new storage and evaluates its operand from the copy. *)
Theorem apply_leaves_rhs op rhs out σ σ' :
  apply op rhs out σ = Ok (tt, σ') →
  store rhs < next σ → store out < next σ →
  store rhs ≠ store out →
  read σ' rhs = read σ rhs ∧
  (∀ l, l < next σ → l ≠ store out → mem σ' !! l = mem σ !! l) ∧
  (∀ A scalar τ,
     applyImpl (OperatorRightScalarMultiplication A scalar) rhs out τ =
     applyImpl A (Buffer (next τ) (home rhs) (next τ)) out
       (State (S (next τ)) (<[next τ := iscale (read τ rhs) scalar]> (mem τ)))).
Proof.
  intros Hrun Hr Ho Hne.
  destruct (apply_computes op rhs out σ σ' Hrun Hr Ho) as [Hw _].
  split_and!.
  - by apply (writes_only_read out).
  - apply Hw.
  - intros A scalar τ. simpl.
    unfold OperatorRightScalarMultiplication_applyImpl, mbind, eff_mbind, eff_bind.
    simpl. f_equal. f_equal.
    rewrite insert_insert_eq. f_equal.
    unfold read at 1. simpl. by rewrite lookup_total_insert_eq.
Qed.

(** * Further properties of the code *)

(** ** Buffers allocated by an evaluation *)

Lemma Concrete_applyImpl_allocates f : allocates 0 (Concrete_applyImpl f).
Proof. intros rhs out σ σ' [= <-]. simpl. lia. Qed.

Lemma no_such_method_allocates n :
  allocates n (no_such_method : @primitive Space Vec).
Proof. by intros rhs out σ σ' ?. Qed.

Lemma Operator_apply_allocates n dom ran p :
  allocates n p → allocates n (Operator_apply dom ran p).
Proof.
  intros Hp rhs out σ σ'. unfold Operator_apply.
  repeat case_match; try done. apply Hp.
Qed.

Lemma LinearOperator_applyAdjoint_allocates n dom ran p :
  allocates n p → allocates n (LinearOperator_applyAdjoint dom ran p).
Proof.
  intros Hp rhs out σ σ'. unfold LinearOperator_applyAdjoint.
  repeat case_match; try done. apply Hp.
Qed.

Lemma accumulate_allocates (combine : Vec → Vec → Vec) (S : Space) n1 n2 p1 p2 :
  allocates n1 p1 → allocates n2 p2 →
  allocates (Datatypes.S (n1 + n2))
    (λ rhs out,
       tmp ← Space_empty S;
       p1 rhs out;;
       p2 rhs tmp;;
       ((λ σ, assign out (combine (read σ out) (read σ tmp)) σ) : eff unit)).
Proof.
  intros H1 H2 rhs out σ σ' Hrun. run_inv Hrun.
  apply H1 in Hstep. apply H2 in Hstep0. injection Hrun as <-.
  simpl in *. lia.
Qed.

Lemma chain_allocates (S : Space) n1 n2 p1 p2 :
  allocates n1 p1 → allocates n2 p2 →
  allocates (Datatypes.S (n1 + n2))
    (λ rhs out, tmp ← Space_empty S; p1 rhs tmp;; p2 tmp out).
Proof.
  intros H1 H2 rhs out σ σ' Hrun. run_inv Hrun.
  apply H1 in Hstep. apply H2 in Hrun. simpl in *. lia.
Qed.

Lemma scale_after_allocates n p scalar :
  allocates n p →
  allocates n (OperatorLeftScalarMultiplication_applyImpl p scalar).
Proof.
  intros H1 rhs out σ σ' Hrun.
  unfold OperatorLeftScalarMultiplication_applyImpl in Hrun. run_inv Hrun.
  apply H1 in Hstep. injection Hrun as <-. simpl. lia.
Qed.

Lemma scale_before_allocates n p scalar :
  allocates n p →
  allocates (S n) (OperatorRightScalarMultiplication_applyImpl p scalar).
Proof.
  intros H1 rhs out σ σ' Hrun.
  unfold OperatorRightScalarMultiplication_applyImpl in Hrun. run_inv Hrun.
  apply H1 in Hrun. simpl in *. lia.
Qed.

Lemma applyImpl_allocates op :
  allocates (temporaries op) (applyImpl op) ∧
  allocates (adjoint_temporaries op) (applyAdjointImpl op).
Proof.
  induction op as
    [ dom ran f | dom ran f g | dom ran f
    | op1 [IH1 IH1'] op2 [IH2 IH2'] | opl [IHl IHl'] opr [IHr IHr']
    | op1 [IH1 IH1'] op2 [IH2 IH2'] | op [IH IH'] a | op [IH IH'] a
    | op [IH IH'] | op1 [IH1 IH1'] op2 [IH2 IH2']
    | opl [IHl IHl'] opr [IHr IHr'] | op [IH IH'] a ]; simpl; split;
    try apply no_such_method_allocates;
    try apply Concrete_applyImpl_allocates;
    try (by apply (accumulate_allocates iadd));
    try (by apply (accumulate_allocates imul));
    try (by apply (chain_allocates _ _ _ (applyImpl opr) (applyImpl opl)));
    try (by apply scale_after_allocates);
    try (by apply scale_before_allocates);
    try done.
  apply chain_allocates; case_match;
    auto using LinearOperator_applyAdjoint_allocates, no_such_method_allocates.
Qed.

(** X1. An evaluation that returns has allocated one buffer for each
    [empty()] and each [copy()] of the combinators it went through, a number
    fixed by the operator alone; scaling the output adds none to its operand,
    scaling the input adds exactly one, the copy. *)
Theorem evaluation_allocates op rhs out σ σ' :
  (apply op rhs out σ = Ok (tt, σ') → next σ' = next σ + temporaries op) ∧
  (applyAdjoint op rhs out σ = Ok (tt, σ') →
   next σ' = next σ + adjoint_temporaries op) ∧
  (∀ scalar,
     temporaries (OperatorLeftScalarMultiplication op scalar) = temporaries op ∧
     temporaries (OperatorRightScalarMultiplication op scalar)
       = S (temporaries op)).
Proof.
  split_and!.
  - apply Operator_apply_allocates, applyImpl_allocates.
  - unfold applyAdjoint. case_match.
    + apply LinearOperator_applyAdjoint_allocates, applyImpl_allocates.
    + done.
  - done.
Qed.

(** ** The adjoint entry point does not write its input *)

(** X2. A call [applyAdjoint(rhs, out)] that returns has written, of what
    existed, the storage of [out] only; [rhs] is unmodified when it does not
    share that storage. *)
Theorem applyAdjoint_leaves_rhs op rhs out σ σ' :
  applyAdjoint op rhs out σ = Ok (tt, σ') →
  store rhs < next σ → store out < next σ →
  (∀ l, l < next σ → l ≠ store out → mem σ' !! l = mem σ !! l) ∧
  (store rhs ≠ store out → read σ' rhs = read σ rhs).
Proof.
  intros Hrun Hr Ho.
  destruct (applyAdjoint_computes op rhs out σ σ' Hrun Hr Ho) as [Hw _].
  split; [apply Hw|]. intros Hne. by apply (writes_only_read out).
Qed.

(** ** Calls *)

Section FurtherReturns.
Context `{!SpaceLaws Space Scalar Vec}.

(** What a constructor that returned has checked. *)
Ltac init_inv :=
  unfold T, operator_plus, method_add, LinearOperator_add, Operator_add,
    LinearOperatorSum_init, LinearOperatorComposition_init,
    LinearOperatorScalarMultiplication_init, OperatorSum_init,
    OperatorComposition_init, OperatorPointwiseProduct_init,
    OperatorLeftScalarMultiplication_init, OperatorRightScalarMultiplication_init,
    OperatorAdjoint_init in *;
  repeat case_match; simplify_eq/=;
  repeat match goal with
         | H : negb _ = false |- _ => apply negb_false_iff in H
         | H : negb _ = true |- _ => apply negb_true_iff in H
         | H : bool_decide (_ ≠ _) = false |- _ =>
             apply bool_decide_eq_false_1, dec_stable in H
         end.

(** The checks of the constructors hold in the goal. *)
Ltac solve_constructed :=
  simpl;
  repeat match goal with H : _ = true |- _ => rewrite H end;
  simpl; rewrite ?bool_decide_eq_true_2 by congruence; done.

(** X3. [op(x)] raises the domain error when [x] is not a member of the
    domain.  On a member it returns a new object on a new storage, a member of
    the range, and writes nothing that existed before the call: neither [x] nor
    any buffer that shares its storage. *)
Theorem call_returns_new_buffer op x σ :
  (isMember (domain op) x = false → call op x σ = Raise DomainError) ∧
  (constructed op = true → isMember (domain op) x = true → allocated σ x →
   ∃ b σ',
     call op x σ = Ok (b, σ') ∧
     isMember (range op) b = true ∧
     ident b = next σ ∧ store b = next σ ∧
     allocated σ' b ∧
     ∀ l, l < next σ → mem σ' !! l = mem σ !! l).
Proof.
  split.
  - intros Hx. unfold call, Operator_call, apply, Operator_apply.
    erewrite bind_run by reflexivity. cbv beta.
    unfold mbind, eff_mbind, eff_bind. by rewrite Hx.
  - intros Hc Hx Hal.
    destruct (call_returns op x σ Hc Hx Hal) as (σ' & Hrun & Hn & _ & Hf).
    eexists _, σ'. split_and!; [exact Hrun|apply isMember_empty|done|done| |done].
    split; simpl; lia.
Qed.


(** X5. For operators [A] and [B] that [OperatorPointwiseProduct] accepts and
    every [x] of their domain, [OperatorPointwiseProduct(A, B)(x)] is the
    element-wise product of [A(x)] and [B(x)]. *)
Theorem pointwise_product_call A B P x σ :
  constructed A = true → constructed B = true →
  OperatorPointwiseProduct_init A B = Ok P →
  isMember (domain A) x = true → allocated σ x →
  ∃ a b,
    returned (call A x σ) = Some a ∧
    returned (call B x σ) = Some b ∧
    returned (call P x σ) = Some (imul a b).
Proof.
  intros HA HB HP Hx Hal. init_inv.
  exists (map_of A (read σ x)), (map_of B (read σ x)). split_and!.
  - by apply call_returned.
  - apply call_returned; [done|congruence|done].
  - apply (call_returned (OperatorPointwiseProduct A B)); [|done..].
    solve_constructed.
Qed.

(** X6. For every operator, linear or not, and a scalar of the field of its
    range, [OperatorLeftScalarMultiplication(A, a)(x)] is [A(x)] scaled by
    [a]. *)
Theorem left_scalar_multiplication_call A scalar L x σ :
  constructed A = true →
  OperatorLeftScalarMultiplication_init A scalar = Ok L →
  isMember (domain A) x = true → allocated σ x →
  ∃ v,
    returned (call A x σ) = Some v ∧
    returned (call L x σ) = Some (iscale v scalar).
Proof.
  intros HA HL Hx Hal. init_inv. exists (map_of A (read σ x)). split.
  - by apply call_returned.
  - apply (call_returned (OperatorLeftScalarMultiplication A scalar)); [|done..].
    solve_constructed.
Qed.

(** X7. For every operator, linear or not, and a scalar of the field of its
    domain, [OperatorRightScalarMultiplication(A, a)(x)] is [A] at the scaled
    input: what [A] returns on any buffer that holds the contents of [x] scaled
    by [a]. *)
Theorem right_scalar_multiplication_call A scalar R x ax σ :
  constructed A = true →
  OperatorRightScalarMultiplication_init A scalar = Ok R →
  isMember (domain A) x = true → isMember (domain A) ax = true →
  allocated σ x → allocated σ ax →
  read σ ax = iscale (read σ x) scalar →
  ∃ v,
    returned (call A ax σ) = Some v ∧
    returned (call R x σ) = Some v.
Proof.
  intros HA HR Hx Hax Hal Hala Hr. init_inv.
  exists (map_of A (read σ ax)). split.
  - by apply call_returned.
  - rewrite Hr.
    apply (call_returned (OperatorRightScalarMultiplication A scalar)); [|done..].
    solve_constructed.
Qed.

(** X8. [A + B] raises [TypeError] when [B] is not an operator.  When it
    returns an operator [S], [S] is a [LinearOperator] exactly when [A] and [B]
    both are, it has the domain and the range of [A], and [S(x)] is
    [A(x) + B(x)]. *)
Theorem plus_call A B S x σ :
  (∀ other, (∀ op', other ≠ VOperator op') →
     operator_plus A other = Raise (TypeError expected_operator)) ∧
  (constructed A = true → constructed B = true →
   operator_plus A (VOperator B) = Ok S →
   isMember (domain A) x = true → allocated σ x →
   is_LinearOperator S = is_LinearOperator A && is_LinearOperator B ∧
   constructed S = true ∧
   domain S = domain A ∧ range S = range A ∧
   ∃ a b,
     returned (call A x σ) = Some a ∧
     returned (call B x σ) = Some b ∧
     returned (call S x σ) = Some (iadd a b)).
Proof.
  split.
  - intros other Hn.
    unfold operator_plus, method_add, LinearOperator_add, Operator_add.
    destruct other as [a|op'|]; [|by destruct (Hn op')|]; by case_match.
  - intros HA HB HS Hx Hal.
    assert (HxB : domain A = domain B → isMember (domain B) x = true)
      by by intros <-.
    init_inv;
      (split_and!; [by repeat match goal with H : _ = _ |- _ => rewrite H end
                   |solve_constructed|done|done|]);
      exists (map_of A (read σ x)), (map_of B (read σ x));
      (split_and!;
       [by apply call_returned
       |apply call_returned; auto
       |rewrite call_returned; [done|solve_constructed|done|done]]).
Qed.

(** X9. The adjoint of a sum of linear operators is the sum of the adjoints:
    with [S = LinearOperatorSum(A, B)], [S.T(y)] is [A.T(y) + B.T(y)]. *)
Theorem sum_adjoint_call A B S y σ :
  constructed A = true → constructed B = true →
  LinearOperatorSum_init A B = Ok S →
  isMember (range A) y = true → allocated σ y →
  ∃ AT BT ST a b,
    T A = Ok AT ∧ T B = Ok BT ∧ T S = Ok ST ∧
    returned (call AT y σ) = Some a ∧
    returned (call BT y σ) = Some b ∧
    returned (call ST y σ) = Some (iadd a b).
Proof.
  intros HA HB HS Hy Hal. init_inv.
  exists (OperatorAdjoint A), (OperatorAdjoint B),
    (OperatorAdjoint (LinearOperatorSum A B)).
  exists (adjoint_map_of A (read σ y)), (adjoint_map_of B (read σ y)).
  split_and!; try done.
  - apply (call_returned (OperatorAdjoint A)); [solve_constructed|done..].
  - apply (call_returned (OperatorAdjoint B)); [solve_constructed| |done].
    simpl. congruence.
  - apply (call_returned (OperatorAdjoint (LinearOperatorSum A B)));
      [solve_constructed|done..].
Qed.

(** X10. With [M = LinearOperatorScalarMultiplication(A, a)], [M(x)] is [A(x)]
    scaled by [a] and the adjoint [M.T(y)] is [A.T(y)] scaled by [a]. *)
Theorem scalar_multiple_and_adjoint_call A scalar M x y σ :
  constructed A = true →
  LinearOperatorScalarMultiplication_init A scalar = Ok M →
  isMember (domain A) x = true → isMember (range A) y = true →
  allocated σ x → allocated σ y →
  ∃ AT MT v w,
    T A = Ok AT ∧ T M = Ok MT ∧
    returned (call A x σ) = Some v ∧
    returned (call M x σ) = Some (iscale v scalar) ∧
    returned (call AT y σ) = Some w ∧
    returned (call MT y σ) = Some (iscale w scalar).
Proof.
  intros HA HM Hx Hy Halx Haly. init_inv.
  exists (OperatorAdjoint A),
    (OperatorAdjoint (LinearOperatorScalarMultiplication A scalar)).
  exists (map_of A (read σ x)), (adjoint_map_of A (read σ y)).
  split_and!; try done.
  - by apply call_returned.
  - apply (call_returned (LinearOperatorScalarMultiplication A scalar));
      [solve_constructed|done..].
  - apply (call_returned (OperatorAdjoint A)); [solve_constructed|done..].
  - apply (call_returned
             (OperatorAdjoint (LinearOperatorScalarMultiplication A scalar)));
      [solve_constructed|done..].
Qed.

(** ** The checks of [applyAdjoint] *)

(** X11. [applyAdjoint(rhs, out)] does not exist on an operator that is not a
    [LinearOperator].  On a linear operator it raises [TypeError] when [rhs] is
    not a member of the range; otherwise [TypeError] when [out] is not a member
    of the domain; otherwise [ValueError] when [rhs] and [out] are the same
    object; otherwise it delegates to [applyAdjointImpl], and returns on every
    operator built by the constructors: the checked calls inside
    [LinearOperatorComposition.applyAdjointImpl] never fail. *)
Theorem applyAdjoint_checks op rhs out σ :
  (is_LinearOperator op = false →
   applyAdjoint op rhs out σ = Raise AttributeError) ∧
  (is_LinearOperator op = true → isMember (range op) rhs = false →
   applyAdjoint op rhs out σ = Raise (TypeError rhs_not_in_adjoint_domain)) ∧
  (is_LinearOperator op = true → isMember (range op) rhs = true →
   isMember (domain op) out = false →
   applyAdjoint op rhs out σ = Raise (TypeError out_not_in_adjoint_range)) ∧
  (is_LinearOperator op = true → isMember (range op) rhs = true →
   isMember (domain op) out = true → ident rhs = ident out →
   applyAdjoint op rhs out σ = Raise (ValueError aliased_adjoint_arguments)) ∧
  (is_LinearOperator op = true → isMember (range op) rhs = true →
   isMember (domain op) out = true → ident rhs ≠ ident out →
   applyAdjoint op rhs out σ = applyAdjointImpl op rhs out σ ∧
   (constructed op = true → ident rhs < next σ → ident out < next σ →
    ∃ σ', applyAdjoint op rhs out σ = Ok (tt, σ'))).
Proof.
  unfold applyAdjoint at 1 2 3 4 5, LinearOperator_applyAdjoint. split_and!.
  - by intros ->.
  - by intros -> ->.
  - by intros -> -> ->.
  - intros -> -> -> Hi. simpl. by rewrite bool_decide_eq_true_2.
  - intros Hl Hr Ho Hi. rewrite Hl, Hr, Ho. simpl.
    rewrite bool_decide_eq_false_2 by done. split; [done|].
    intros Hc ? ?.
    destruct (applyAdjoint_succeeds op Hc Hl rhs out σ) as (σ' & ? & _); eauto.
Qed.

(** ** The algebra of compositions *)

(** X12. Composition is associative: [(A ∘ B) ∘ C] and [A ∘ (B ∘ C)] return
    the same contents on every input. *)
Theorem composition_associative A B C AB BC L R x σ :
  constructed A = true → constructed B = true → constructed C = true →
  OperatorComposition_init A B = Ok AB →
  OperatorComposition_init B C = Ok BC →
  OperatorComposition_init AB C = Ok L →
  OperatorComposition_init A BC = Ok R →
  isMember (domain C) x = true → allocated σ x →
  ∃ v, returned (call L x σ) = Some v ∧ returned (call R x σ) = Some v.
Proof.
  intros HA HB HC HAB HBC HL HR Hx Hal. init_inv.
  exists (map_of A (map_of B (map_of C (read σ x)))). split.
  - rewrite call_returned; [done|solve_constructed|done..].
  - rewrite call_returned; [done|solve_constructed|done..].
Qed.

(** X13. Composition distributes over a sum on its left:
    [(A + B) ∘ C] and [(A ∘ C) + (B ∘ C)] return the same contents on every
    input, for operators of any class. *)
Theorem composition_distributes_over_sum A B C S AC BC L R x σ :
  constructed A = true → constructed B = true → constructed C = true →
  OperatorSum_init A B = Ok S →
  OperatorComposition_init S C = Ok L →
  OperatorComposition_init A C = Ok AC →
  OperatorComposition_init B C = Ok BC →
  OperatorSum_init AC BC = Ok R →
  isMember (domain C) x = true → allocated σ x →
  ∃ v, returned (call L x σ) = Some v ∧ returned (call R x σ) = Some v.
Proof.
  intros HA HB HC HS HL HAC HBC HR Hx Hal. init_inv.
  exists (iadd (map_of A (map_of C (read σ x))) (map_of B (map_of C (read σ x)))).
  split.
  - rewrite call_returned; [done|solve_constructed|done..].
  - rewrite call_returned; [done|solve_constructed|done..].
Qed.

(** X14. The adjoint of a composition is the composition of the adjoints in
    the reverse order, as operators: with [C = LinearOperatorComposition(L, R)],
    the constructor accepts [LinearOperatorComposition(R.T, L.T)], and [C.T]
    and that operator return the same contents on every input. *)
Theorem adjoint_of_composition L R C y σ :
  constructed L = true → constructed R = true →
  LinearOperatorComposition_init L R = Ok C →
  isMember (range L) y = true → allocated σ y →
  ∃ LT RT CT D v,
    T L = Ok LT ∧ T R = Ok RT ∧ T C = Ok CT ∧
    LinearOperatorComposition_init RT LT = Ok D ∧
    returned (call CT y σ) = Some v ∧
    returned (call D y σ) = Some v.
Proof.
  intros HL HR HC Hy Hal. init_inv.
  exists (OperatorAdjoint L), (OperatorAdjoint R),
    (OperatorAdjoint (LinearOperatorComposition L R)),
    (LinearOperatorComposition (OperatorAdjoint R) (OperatorAdjoint L)),
    (adjoint_map_of R (adjoint_map_of L (read σ y))).
  split_and!; try done.
  - simpl. by rewrite bool_decide_eq_false_2 by (intros ?; congruence).
  - apply (call_returned (OperatorAdjoint (LinearOperatorComposition L R)));
      [solve_constructed|done..].
  - apply (call_returned
             (LinearOperatorComposition (OperatorAdjoint R) (OperatorAdjoint L)));
      [solve_constructed|done..].
Qed.

(** ** The linear combinators keep the contract of [LinearOperator] *)

Section Linearity.
Context `{!VectorLaws Space Scalar Vec}.

(** Induction over an operator built by the constructors, with the checks of
    each constructor at hand. *)
Ltac linear_induction op :=
  induction op as
    [ dom ran f | dom ran f g | dom ran f
    | op1 IH1 op2 IH2 | opl IHl opr IHr
    | op1 IH1 op2 IH2 | op IH a' | op IH a'
    | op IH | op1 IH1 op2 IH2
    | opl IHl opr IHr | op IH a' ]; simpl;
    intros Hc Hlin Hleaves; try discriminate Hlin;
    repeat (apply andb_prop in Hc as [Hc ?]);
    repeat match goal with
           | H : _ ∧ _ |- _ => destruct H
           | IH : constructed ?o = true → _, H : constructed ?o = true |- _ =>
               specialize (IH H)
           | IH : is_LinearOperator ?o = true → _,
             H : is_LinearOperator ?o = true |- _ => specialize (IH H)
           | IH : leaves_satisfy ?P ?o → _, H : leaves_satisfy ?P ?o |- _ =>
               specialize (IH H)
           end.

Lemma linear_maps_homogeneous scalar op :
  constructed op = true → is_LinearOperator op = true →
  leaves_satisfy (λ f, ∀ v, f (iscale v scalar) = iscale (f v) scalar) op →
  (∀ v, map_of op (iscale v scalar) = iscale (map_of op v) scalar) ∧
  (∀ v, adjoint_map_of op (iscale v scalar) = iscale (adjoint_map_of op v) scalar).
Proof.
  linear_induction op; split; intros v; auto;
    repeat match goal with H : ∀ _, _ = _ |- _ => rewrite H; clear H end;
    first [done | by rewrite iscale_iadd | by rewrite iscale_iscale].
Qed.

Lemma linear_maps_additive op :
  constructed op = true → is_LinearOperator op = true →
  leaves_satisfy (λ f, ∀ u w, f (iadd u w) = iadd (f u) (f w)) op →
  (∀ u w, map_of op (iadd u w) = iadd (map_of op u) (map_of op w)) ∧
  (∀ u w, adjoint_map_of op (iadd u w)
          = iadd (adjoint_map_of op u) (adjoint_map_of op w)).
Proof.
  linear_induction op; split; intros u w; auto;
    repeat match goal with H : ∀ _ _, _ = _ |- _ => rewrite H; clear H end;
    first [done | by rewrite iadd_interchange | by rewrite iscale_iadd].
Qed.

(** X15. An operator of class [LinearOperator] built by the constructors from
    client operators whose primitives commute with scaling by [a] commutes
    with scaling by [a], and so does its adjoint [A.T]. *)
Theorem linear_operators_homogeneous A scalar :
  constructed A = true → is_LinearOperator A = true →
  leaves_satisfy (λ f, ∀ v, f (iscale v scalar) = iscale (f v) scalar) A →
  homogeneous A scalar ∧
  ∃ AT, T A = Ok AT ∧ homogeneous AT scalar.
Proof.
  intros Hc Hl Hleaves.
  destruct (linear_maps_homogeneous scalar A Hc Hl Hleaves) as [Hf Ha].
  assert (HcT : constructed (OperatorAdjoint A) = true) by (simpl; by rewrite Hc, Hl).
  split; [|exists (OperatorAdjoint A); split;
            [unfold T, OperatorAdjoint_init; by rewrite Hl|]];
    intros σ x ax Hx Hax Hal Hala Hr.
  - exists (map_of A (read σ x)). split; [by apply call_returned|].
    rewrite call_returned by done. by rewrite Hr, Hf.
  - exists (adjoint_map_of A (read σ x)).
    split; [by apply (call_returned (OperatorAdjoint A))|].
    rewrite (call_returned (OperatorAdjoint A)) by done. simpl.
    by rewrite Hr, Ha.
Qed.

(** X16. An operator of class [LinearOperator] built by the constructors from
    client operators whose primitives are additive is additive, and so is its
    adjoint [A.T]. *)
Theorem linear_operators_additive A :
  constructed A = true → is_LinearOperator A = true →
  leaves_satisfy (λ f, ∀ u w, f (iadd u w) = iadd (f u) (f w)) A →
  additive A ∧
  ∃ AT, T A = Ok AT ∧ additive AT.
Proof.
  intros Hc Hl Hleaves.
  destruct (linear_maps_additive A Hc Hl Hleaves) as [Hf Ha].
  assert (HcT : constructed (OperatorAdjoint A) = true) by (simpl; by rewrite Hc, Hl).
  split; [|exists (OperatorAdjoint A); split;
            [unfold T, OperatorAdjoint_init; by rewrite Hl|]];
    intros σ x y xy Hx Hy Hxy Halx Haly Halxy Hr.
  - exists (map_of A (read σ x)), (map_of A (read σ y)).
    rewrite !call_returned by done. by rewrite Hr, Hf.
  - exists (adjoint_map_of A (read σ x)), (adjoint_map_of A (read σ y)).
    rewrite !(call_returned (OperatorAdjoint A)) by done. simpl.
    by rewrite Hr, Ha.
Qed.

End Linearity.

(** ** The Landweber iteration *)

Section Landweber.
Context `{!ElementArithmetic Scalar Vec}.

Lemma call_frame op x b σ σ' :
  call op x σ = Ok (b, σ') → store x < next σ →
  b = Buffer (next σ) (range op) (next σ) ∧
  next σ < next σ' ∧
  ∀ l, l < next σ → mem σ' !! l = mem σ !! l.
Proof.
  intros Hrun Hx. unfold call, Operator_call in Hrun.
  apply bind_Ok in Hrun as (tmp & σ1 & Htmp & Hrun). injection Htmp as <- <-.
  apply bind_Ok in Hrun as ([] & σ2 & Happly & Hrun). injection Hrun as <- <-.
  apply apply_computes in Happly as [[Hn Hf] _]; simpl in *; [lia..|].
  split_and!; [done|lia|].
  intros l Hl. rewrite Hf by lia. apply lookup_insert_ne. lia.
Qed.

Lemma landweber_step_frame op rhs omega x x' σ σ' :
  landweber_step op rhs omega x σ = Ok (x', σ') → store x < next σ →
  store x' < next σ' ∧ next σ ≤ next σ' ∧
  ∀ l, l < next σ → mem σ' !! l = mem σ !! l.
Proof.
  intros Hrun Hx. unfold landweber_step in Hrun.
  apply bind_Ok in Hrun as (opT & σa & HT & Hrun).
  unfold lift in HT. destruct (T op); [|done]. injection HT as <- <-.
  apply bind_Ok in Hrun as (y & σ1 & Hy & Hrun).
  apply call_frame in Hy as (-> & Hn1 & Hf1); [|done].
  apply bind_Ok in Hrun as (d & σ2 & Hd & Hrun). injection Hd as <- <-.
  apply bind_Ok in Hrun as (g & σ3 & Hg & Hrun).
  apply call_frame in Hg as (-> & Hn3 & Hf3); [|simpl; lia].
  apply bind_Ok in Hrun as (h & σ4 & Hh & Hrun). injection Hh as <- <-.
  injection Hrun as <- <-. simpl in *. split_and!; [lia..|].
  intros l Hl. rewrite !lookup_insert_ne by lia.
  rewrite Hf3 by lia. rewrite lookup_insert_ne by lia. by apply Hf1.
Qed.

Lemma landweber_loop_frame op rhs omega iterations x x' σ σ' :
  landweber_loop op rhs omega iterations x σ = Ok (x', σ') →
  store x < next σ →
  next σ ≤ next σ' ∧ ∀ l, l < next σ → mem σ' !! l = mem σ !! l.
Proof.
  revert x σ. induction iterations as [|n IH]; intros x σ Hrun Hx; simpl in Hrun.
  - by injection Hrun as <- <-.
  - apply bind_Ok in Hrun as (x1 & σ1 & Hstep & Hrun).
    apply landweber_step_frame in Hstep as (Hx1 & Hn1 & Hf1); [|done].
    apply IH in Hrun as [Hn Hf]; [|done].
    split; [lia|]. intros l Hl. rewrite Hf by lia. by apply Hf1.
Qed.

(** X17. [landweberBase] only rebinds its local name [x]: a call that returns
    has written no buffer that existed before it, so the caller's [x] holds
    what it held and the iterate is lost.  With zero iterations it returns at
    once, whatever its arguments; with at least one iteration on an operator
    that is not a [LinearOperator] it raises [AttributeError] at
    [operator.T]. *)
Theorem landweberBase_keeps_buffers op x rhs iterations omega σ :
  (∀ σ', landweberBase op x rhs iterations omega σ = Ok (tt, σ') →
         store x < next σ →
         read σ' x = read σ x ∧
         ∀ l, l < next σ → mem σ' !! l = mem σ !! l) ∧
  landweberBase op x rhs 0 omega σ = Ok (tt, σ) ∧
  (is_LinearOperator op = false →
   landweberBase op x rhs (S iterations) omega σ = Raise AttributeError).
Proof.
  split_and!.
  - intros σ' Hrun Hx. unfold landweberBase in Hrun.
    apply bind_Ok in Hrun as (x' & σ1 & Hloop & Hret). injection Hret as <-.
    apply landweber_loop_frame in Hloop as [_ Hf]; [|done].
    split; [|done]. apply read_frame. by apply Hf.
  - reflexivity.
  - intros Hl. unfold landweberBase, mbind, eff_mbind, eff_bind. simpl.
    unfold landweber_step, mbind, eff_mbind, eff_bind, lift, T. by rewrite Hl.
Qed.



End Landweber.

End FurtherReturns.

End Properties.

(** * Instances of the theorems *)

Lemma Integers_laws : SpaceLaws nat Z (list Z).
Proof.
  split.
  - intros S i s. by apply bool_decide_eq_true_2.
  - intros S b i s Hb. apply bool_decide_eq_true_1 in Hb.
    by apply bool_decide_eq_true_2.
Qed.
#[local] Existing Instance Integers_laws.

(** The scenario of the specification: scaling by 2 plus scaling by 3 is
    scaling by 5. *)
Example sum_of_doubling_and_tripling :
  returned (call (OperatorSum doubling tripling) x0 σ0) = Some [5; 10; 15]%Z.
Proof. by vm_compute. Qed.

Lemma sum_call_pointwise_witness :
  OperatorSum_init doubling tripling = Ok (OperatorSum doubling tripling) ∧
  (∃ a b,
     returned (call doubling x0 σ0) = Some a ∧
     returned (call tripling x0 σ0) = Some b ∧
     returned (call (OperatorSum doubling tripling) x0 σ0) = Some (iadd a b)) ∧
  (∀ rhs out,
     applyImpl (OperatorSum doubling tripling) rhs out =
       (tmp ← Space_empty (range (OperatorSum doubling tripling));
        applyImpl doubling rhs out;;
        applyImpl tripling rhs tmp;;
        buffer_iadd out tmp)).
Proof.
  apply (sum_call_pointwise doubling tripling x0 σ0);
    [reflexivity..|split; simpl; lia].
Defined.

Lemma composition_call_in_sequence_witness :
  ∃ y σ1 z σ2,
    call squaring x0 σ0 = Ok (y, σ1) ∧
    call doubling y σ1 = Ok (z, σ2) ∧
    returned (call (OperatorComposition doubling squaring) x0 σ0)
      = Some (read σ2 z).
Proof.
  apply (composition_call_in_sequence doubling squaring x0 σ0);
    [reflexivity..|split; simpl; lia].
Defined.

Lemma double_adjoint_witness :
  ∃ AT ATT,
    T tripling = Ok AT ∧ T AT = Ok ATT ∧
    domain ATT = domain tripling ∧ range ATT = range tripling ∧
    (∀ rhs out σ, apply ATT rhs out σ = apply tripling rhs out σ) ∧
    (∀ rhs out σ, applyAdjoint ATT rhs out σ = applyAdjoint tripling rhs out σ).
Proof. apply (double_adjoint tripling). reflexivity. Defined.

Lemma composition_adjoint_reverses_witness :
  ∃ LT RT t σ1 z σ2 σ',
    T doubling = Ok LT ∧ T tripling = Ok RT ∧
    call LT x0 σ0 = Ok (t, σ1) ∧
    call RT t σ1 = Ok (z, σ2) ∧
    applyAdjoint (LinearOperatorComposition doubling tripling) x0 y0 σ0
      = Ok (tt, σ') ∧
    read σ' y0 = read σ2 z.
Proof.
  apply (composition_adjoint_reverses doubling tripling x0 y0 σ0);
    [reflexivity..|split; simpl; lia|split; simpl; lia|simpl; lia].
Defined.

Lemma apply_checks_witness :
  apply doubling x0 y0 σ0 = applyImpl doubling x0 y0 σ0 ∧
  ∃ σ', apply doubling x0 y0 σ0 = Ok (tt, σ').
Proof.
  destruct (apply_checks doubling x0 y0 σ0) as (_ & _ & _ & H).
  destruct H as [H1 H2]; [reflexivity|reflexivity|simpl; lia|].
  split; [exact H1|]. apply H2; [reflexivity|simpl; lia|simpl; lia].
Defined.

(** Two distinct objects on one storage pass the aliasing check. *)
Lemma aliasing_check_is_identity_witness :
  apply doubling x0 x0_view σ0 = applyImpl doubling x0 x0_view σ0 ∧
  ∃ σ', apply doubling x0 x0_view σ0 = Ok (tt, σ').
Proof.
  destruct (aliasing_check_is_identity doubling x0 x0_view σ0) as [H _];
    [reflexivity|simpl; lia|simpl; lia|].
  destruct H as [_ H]; [reflexivity|reflexivity|].
  apply H. simpl. lia.
Defined.

Lemma selfadjoint_applyAdjoint_is_apply_witness :
  applyAdjoint doubling x0 y0 σ0 = apply doubling x0 y0 σ0 ∧
  ∃ σ', apply doubling x0 y0 σ0 = Ok (tt, σ').
Proof.
  apply (selfadjoint_applyAdjoint_is_apply doubling x0 y0 σ0);
    [reflexivity..|simpl; lia].
Defined.

Lemma apply_leaves_rhs_witness :
  read (State 2 (<[1 := [2; 4; 6]%Z]> (mem σ0))) x0 = read σ0 x0.
Proof.
  apply (apply_leaves_rhs doubling x0 y0 σ0
           (State 2 (<[1 := [2; 4; 6]%Z]> (mem σ0))));
    [vm_compute; reflexivity|simpl; lia|simpl; lia|simpl; lia].
Defined.

Lemma tripling_homogeneous : homogeneous tripling 2%Z.
Proof.
  intros σ x ax Hx Hax Hal Hala Hr. exists (map_of tripling (read σ x)). split.
  - by apply call_returned.
  - rewrite call_returned by done. rewrite Hr. simpl. f_equal.
    rewrite <- !list_fmap_compose. apply list_fmap_ext. intros ? z ?. simpl. lia.
Qed.

Lemma linear_scalar_multiplication_witness :
  (∃ v,
     returned (call (OperatorLeftScalarMultiplication tripling 2%Z) x0 σ0) = Some v ∧
     returned (call (OperatorRightScalarMultiplication tripling 2%Z) x0 σ0) = Some v) ∧
  operator_times tripling (VNumber 2%Z)
    = Ok (LinearOperatorScalarMultiplication tripling 2%Z) ∧
  times_operator (VNumber 2%Z) tripling
    = Ok (LinearOperatorScalarMultiplication tripling 2%Z).
Proof.
  destruct (linear_scalar_multiplication tripling 2%Z x0 σ0
              (OperatorLeftScalarMultiplication tripling 2%Z)
              (OperatorRightScalarMultiplication tripling 2%Z))
    as (H1 & [H2 H3] & _);
    [reflexivity|reflexivity|exact tripling_homogeneous
    |reflexivity|reflexivity|reflexivity|split; simpl; lia|].
  split_and!; assumption.
Defined.

(** ** Instances of the further properties *)

Lemma Integers_vector_laws : VectorLaws nat Z (list Z).
Proof.
  split; simpl.
  - intros u w a. revert w. induction u as [|z u IH]; intros [|z' w]; simpl;
      try done. f_equal; [lia|apply IH].
  - intros u a b. rewrite <- !list_fmap_compose. apply list_fmap_ext.
    intros ? z ?. simpl. lia.
  - intros a. induction a as [|z a IH]; intros [|? b] [|? c] [|? d]; simpl;
      try done. f_equal; [lia|apply IH].
Qed.
#[local] Existing Instance Integers_vector_laws.

Lemma evaluation_allocates_witness :
  next (State 3 (<[1 := [5; 10; 15]%Z]> (<[2 := [3; 6; 9]%Z]> (mem σ0))))
    = next σ0 + temporaries (OperatorSum doubling tripling).
Proof.
  apply (proj1 (evaluation_allocates (OperatorSum doubling tripling) x0 y0 σ0 _)).
  vm_compute. reflexivity.
Defined.

Lemma applyAdjoint_leaves_rhs_witness :
  read (State 2 (<[1 := [3; 6; 9]%Z]> (mem σ0))) x0 = read σ0 x0.
Proof.
  apply (applyAdjoint_leaves_rhs tripling x0 y0 σ0
           (State 2 (<[1 := [3; 6; 9]%Z]> (mem σ0))));
    [vm_compute; reflexivity|simpl; lia|simpl; lia|simpl; lia].
Defined.

Lemma call_returns_new_buffer_witness :
  ∃ b σ',
    call doubling x0 σ0 = Ok (b, σ') ∧
    isMember (range doubling) b = true ∧
    ident b = next σ0 ∧ store b = next σ0 ∧
    allocated σ' b ∧
    ∀ l, l < next σ0 → mem σ' !! l = mem σ0 !! l.
Proof.
  apply (proj2 (call_returns_new_buffer doubling x0 σ0));
    [reflexivity|reflexivity|split; simpl; lia].
Defined.


Lemma pointwise_product_call_witness :
  ∃ a b,
    returned (call squaring x0 σ0) = Some a ∧
    returned (call doubling x0 σ0) = Some b ∧
    returned (call (OperatorPointwiseProduct squaring doubling) x0 σ0)
      = Some (imul a b).
Proof.
  apply (pointwise_product_call squaring doubling
           (OperatorPointwiseProduct squaring doubling) x0 σ0);
    [reflexivity..|split; simpl; lia].
Defined.

Lemma left_scalar_multiplication_call_witness :
  ∃ v,
    returned (call squaring x0 σ0) = Some v ∧
    returned (call (OperatorLeftScalarMultiplication squaring 2%Z) x0 σ0)
      = Some (iscale v 2%Z).
Proof.
  apply (left_scalar_multiplication_call squaring 2%Z
           (OperatorLeftScalarMultiplication squaring 2%Z) x0 σ0);
    [reflexivity..|split; simpl; lia].
Defined.

Lemma right_scalar_multiplication_call_witness :
  ∃ v,
    returned (call squaring (Buffer 2 3 2)
                (State 3 (<[2 := [2; 4; 6]%Z]> (mem σ0)))) = Some v ∧
    returned (call (OperatorRightScalarMultiplication squaring 2%Z) x0
                (State 3 (<[2 := [2; 4; 6]%Z]> (mem σ0)))) = Some v.
Proof.
  apply (right_scalar_multiplication_call squaring 2%Z
           (OperatorRightScalarMultiplication squaring 2%Z) x0 (Buffer 2 3 2)
           (State 3 (<[2 := [2; 4; 6]%Z]> (mem σ0))));
    [reflexivity|reflexivity|reflexivity|reflexivity
    |split; simpl; lia|split; simpl; lia|vm_compute; reflexivity].
Defined.

Lemma plus_call_witness :
  is_LinearOperator (LinearOperatorSum doubling tripling)
    = is_LinearOperator doubling && is_LinearOperator tripling ∧
  constructed (LinearOperatorSum doubling tripling) = true ∧
  domain (LinearOperatorSum doubling tripling) = domain doubling ∧
  range (LinearOperatorSum doubling tripling) = range doubling ∧
  ∃ a b,
    returned (call doubling x0 σ0) = Some a ∧
    returned (call tripling x0 σ0) = Some b ∧
    returned (call (LinearOperatorSum doubling tripling) x0 σ0) = Some (iadd a b).
Proof.
  apply (proj2 (plus_call doubling tripling
                  (LinearOperatorSum doubling tripling) x0 σ0));
    [reflexivity..|split; simpl; lia].
Defined.

Lemma sum_adjoint_call_witness :
  ∃ AT BT ST a b,
    T doubling = Ok AT ∧ T tripling = Ok BT ∧
    T (LinearOperatorSum doubling tripling) = Ok ST ∧
    returned (call AT x0 σ0) = Some a ∧
    returned (call BT x0 σ0) = Some b ∧
    returned (call ST x0 σ0) = Some (iadd a b).
Proof.
  apply (sum_adjoint_call doubling tripling
           (LinearOperatorSum doubling tripling) x0 σ0);
    [reflexivity..|split; simpl; lia].
Defined.

Lemma scalar_multiple_and_adjoint_call_witness :
  ∃ AT MT v w,
    T tripling = Ok AT ∧
    T (LinearOperatorScalarMultiplication tripling 2%Z) = Ok MT ∧
    returned (call tripling x0 σ0) = Some v ∧
    returned (call (LinearOperatorScalarMultiplication tripling 2%Z) x0 σ0)
      = Some (iscale v 2%Z) ∧
    returned (call AT y0 σ0) = Some w ∧
    returned (call MT y0 σ0) = Some (iscale w 2%Z).
Proof.
  apply (scalar_multiple_and_adjoint_call tripling 2%Z
           (LinearOperatorScalarMultiplication tripling 2%Z) x0 y0 σ0);
    [reflexivity..|split; simpl; lia|split; simpl; lia].
Defined.

Lemma applyAdjoint_checks_witness :
  applyAdjoint tripling x0 y0 σ0 = applyAdjointImpl tripling x0 y0 σ0 ∧
  ∃ σ', applyAdjoint tripling x0 y0 σ0 = Ok (tt, σ').
Proof.
  destruct (applyAdjoint_checks tripling x0 y0 σ0) as (_ & _ & _ & _ & H).
  destruct H as [H1 H2]; [reflexivity|reflexivity|reflexivity|simpl; lia|].
  split; [exact H1|]. apply H2; [reflexivity|simpl; lia|simpl; lia].
Defined.

Lemma composition_associative_witness :
  ∃ v,
    returned (call (OperatorComposition (OperatorComposition doubling squaring)
                      tripling) x0 σ0) = Some v ∧
    returned (call (OperatorComposition doubling
                      (OperatorComposition squaring tripling)) x0 σ0) = Some v.
Proof.
  apply (composition_associative doubling squaring tripling
           (OperatorComposition doubling squaring)
           (OperatorComposition squaring tripling));
    [reflexivity..|split; simpl; lia].
Defined.

Lemma composition_distributes_over_sum_witness :
  ∃ v,
    returned (call (OperatorComposition (OperatorSum doubling squaring) tripling)
                x0 σ0) = Some v ∧
    returned (call (OperatorSum (OperatorComposition doubling tripling)
                      (OperatorComposition squaring tripling)) x0 σ0) = Some v.
Proof.
  apply (composition_distributes_over_sum doubling squaring tripling
           (OperatorSum doubling squaring)
           (OperatorComposition doubling tripling)
           (OperatorComposition squaring tripling));
    [reflexivity..|split; simpl; lia].
Defined.

Lemma adjoint_of_composition_witness :
  ∃ LT RT CT D v,
    T doubling = Ok LT ∧ T tripling = Ok RT ∧
    T (LinearOperatorComposition doubling tripling) = Ok CT ∧
    LinearOperatorComposition_init RT LT = Ok D ∧
    returned (call CT x0 σ0) = Some v ∧
    returned (call D x0 σ0) = Some v.
Proof.
  apply (adjoint_of_composition doubling tripling
           (LinearOperatorComposition doubling tripling) x0 σ0);
    [reflexivity..|split; simpl; lia].
Defined.

Lemma integer_scaling_homogeneous (k a : Z) (v : list Z) :
  (λ x, k * x)%Z <$> iscale v a = iscale ((λ x, k * x)%Z <$> v) a.
Proof.
  simpl. rewrite <- !list_fmap_compose. apply list_fmap_ext.
  intros ? z ?. simpl. lia.
Qed.

Lemma integer_scaling_additive (k : Z) (u w : list Z) :
  (λ x, k * x)%Z <$> iadd u w
    = iadd ((λ x, k * x)%Z <$> u) ((λ x, k * x)%Z <$> w).
Proof.
  simpl. revert w. induction u as [|z u IH]; intros [|z' w]; simpl; try done.
  f_equal; [lia|apply IH].
Qed.

Lemma linear_operators_homogeneous_witness :
  homogeneous (LinearOperatorSum doubling tripling) 2%Z ∧
  ∃ AT, T (LinearOperatorSum doubling tripling) = Ok AT ∧ homogeneous AT 2%Z.
Proof.
  apply (linear_operators_homogeneous (LinearOperatorSum doubling tripling) 2%Z);
    [reflexivity|reflexivity|].
  repeat split; intros v; apply integer_scaling_homogeneous.
Defined.

Lemma linear_operators_additive_witness :
  additive (LinearOperatorSum doubling tripling) ∧
  ∃ AT, T (LinearOperatorSum doubling tripling) = Ok AT ∧ additive AT.
Proof.
  apply (linear_operators_additive (LinearOperatorSum doubling tripling));
    [reflexivity|reflexivity|].
  repeat split; intros u w; apply integer_scaling_additive.
Defined.

Lemma landweberBase_keeps_buffers_witness :
  ∃ σ',
    landweberBase tripling x0 y0 1 1%Z σ0 = Ok (tt, σ') ∧
    read σ' x0 = read σ0 x0.
Proof.
  eexists. split; [vm_compute; reflexivity|].
  apply (proj1 (landweberBase_keeps_buffers tripling x0 y0 1 1%Z σ0));
    [vm_compute; reflexivity|simpl; lia].
Defined.


Lemma init_constructed_witness :
  constructed (OperatorSum doubling tripling) = true.
Proof.
  apply (proj1 init_constructed doubling tripling); reflexivity.
Defined.


(** * Where the code departs from the claims *)

(** C1. The product with the scalar on the left, [2 * A], on the squaring
    operator [A]: Python calls [Operator.__rmul__], which builds an
    [OperatorRightScalarMultiplication], so the input is scaled
    ([A(2 x) = 4 x²]); the product [A * 2] calls [Operator.__mul__] and builds
    an [OperatorLeftScalarMultiplication], which scales the output
    ([2 A(x) = 2 x²]).  The docstrings of the two methods, and the claim, say
    the reverse. *)
Theorem scalar_on_the_left_scales_the_input :
  times_operator (VNumber 2%Z) squaring
    = Ok (OperatorRightScalarMultiplication squaring 2%Z) ∧
  operator_times squaring (VNumber 2%Z)
    = Ok (OperatorLeftScalarMultiplication squaring 2%Z) ∧
  returned (call (OperatorRightScalarMultiplication squaring 2%Z) x0 σ0)
    = Some [4; 16; 36]%Z ∧
  returned (call (OperatorLeftScalarMultiplication squaring 2%Z) x0 σ0)
    = Some [2; 8; 18]%Z.
Proof. split_and!; by vm_compute. Qed.

(** C2 as stated fails: [x0] and [x0_view] are members of the domain and of the
    range of [doubling] and have the same storage, and [apply] does not raise
    the aliasing error. *)
Lemma apply_accepts_shared_storage :
  ¬ (isMember (domain doubling) x0 = true →
     isMember (range doubling) x0_view = true →
     store x0 = store x0_view →
     apply doubling x0 x0_view σ0 = Raise AliasingError).
Proof.
  intros H. specialize (H eq_refl eq_refl eq_refl).
  vm_compute in H. discriminate H.
Qed.

(** C9 as stated fails: the call [apply(x0, x0_view)] returns, and the contents
    of the input [x0] are no longer [1, 2, 3] but [2, 4, 6]. *)
Lemma apply_overwrites_shared_rhs :
  ¬ (∀ σ', apply doubling x0 x0_view σ0 = Ok (tt, σ') →
           read σ' x0 = read σ0 x0).
Proof.
  intros H.
  specialize (H (State 2 (<[0 := [2; 4; 6]%Z]> (mem σ0)))).
  vm_compute in H. specialize (H eq_refl). discriminate H.
Qed.
